(** * go-odp: the netlink codec of [netlink.go]

    A shallow embedding of the message builder, the response validator and
    the message parser ("butcher") of [netlink.go], with the properties of
    the natural-language specification stated over it.

    Conventions of the embedding.
    - Go's [int] and [uintptr] are 64 bits wide (linux/amd64, the platform
      the code is run on); every fixed-width integer is a [Z] and the
      wrap-around of each arithmetic operation is written out.
    - A byte slice is a [list byte].  Structured access through
      [unsafe.Pointer] casts reads and writes the bytes of the slice in the
      byte order of the machine, which is a parameter ([ByteOrder]).
    - A run-time panic of the Go program is an explicit outcome ([Panic]),
      distinct from an [error] value returned to the caller. *)

From Stdlib Require Import ZArith List Lia Bool.
From Stdlib.Strings Require Import Byte String.
From stdpp Require Import gmap.
Import ListNotations.

Open Scope Z_scope.

(** ** Fixed-width integers *)

Module GoInt.

Definition max_int : Z := 2 ^ 63 - 1.
Definition min_int : Z := - 2 ^ 63.

(** Two's complement reduction to a signed integer of [64] bits ([int]). *)
Definition wrap_int (x : Z) : Z := (x + 2 ^ 63) mod 2 ^ 64 - 2 ^ 63.
(** ... and to [int32], [uint16], [uint32], [uintptr]. *)
Definition wrap_int32 (x : Z) : Z := (x + 2 ^ 31) mod 2 ^ 32 - 2 ^ 31.
Definition wrap_uint16 (x : Z) : Z := x mod 2 ^ 16.
Definition wrap_uint32 (x : Z) : Z := x mod 2 ^ 32.
Definition wrap_uintptr (x : Z) : Z := x mod 2 ^ 64.

Definition int_add (x y : Z) : Z := wrap_int (x + y).
Definition int_sub (x y : Z) : Z := wrap_int (x - y).
Definition int_mul (x y : Z) : Z := wrap_int (x * y).
Definition int_neg (x : Z) : Z := wrap_int (- x).
(** Go's [/] truncates towards zero. *)
Definition int_quot (x y : Z) : Z := wrap_int (Z.quot x y).

Definition is_int (x : Z) : Prop := min_int <= x <= max_int.
Definition is_uint16 (x : Z) : Prop := 0 <= x < 2 ^ 16.
Definition is_uint32 (x : Z) : Prop := 0 <= x < 2 ^ 32.
Definition is_uintptr (x : Z) : Prop := 0 <= x < 2 ^ 64.

End GoInt.
Import GoInt.

(** ** [align] *)

(** [func align(n int, a int) int { return (n + a - 1) & -a }] *)
Definition align (n a : Z) : Z :=
  Z.land (int_sub (int_add n a) 1) (int_neg a).

Definition is_pow2 (a : Z) : Prop := exists k, 0 <= k /\ a = 2 ^ k.

(** The alignment property of the specification at one pair of arguments:
    [align n a] is the least multiple of [a] above [n]; aligning is
    idempotent; the result is [0] modulo [a] (Go's [%]); and the distance to
    [n] (Go's [-] on [int]) is below [a]. *)
Definition align_spec (n a : Z) : Prop :=
  ((a | align n a) /\ n <= align n a /\
   (forall m, n <= m -> (a | m) -> align n a <= m)) /\
  align (align n a) a = align n a /\
  Z.rem (align n a) a = 0 /\
  int_sub (align n a) n < a.

(** Its two halves: [align n a] is the least multiple of [a] above [n]; and
    the three equations on [align n a] alone. *)
Definition align_rounds_up (n a : Z) : Prop :=
  (a | align n a) /\ n <= align n a /\
  (forall m, n <= m -> (a | m) -> align n a <= m).

Definition align_algebra (n a : Z) : Prop :=
  align (align n a) a = align n a /\
  Z.rem (align n a) a = 0 /\
  int_sub (align n a) n < a.

(** ** Outcomes of a call *)

(** Run-time panics of the Go program. [UnsafeAccess] is an access through
    an [unsafe.Pointer] cast that falls outside the slice the pointer was
    taken from: Go does not check it and its effect is not determined by the
    slice, so the embedding stops there. *)
Inductive panic : Type :=
| IndexOutOfRange
| SliceBoundsOutOfRange
| MakeSliceOutOfRange
| UnsafeAccess.

(** A call returns ([Ok]), panics, or exhausts the fuel given to one of the
    two loops of the program ([OutOfFuel] is no behaviour of the Go code). *)
Inductive result (A : Type) : Type :=
| Ok (a : A)
| Panic (p : panic)
| OutOfFuel.
Arguments Ok {A} a.
Arguments Panic {A} p.
Arguments OutOfFuel {A}.

Definition bind {A B : Type} (c : result A) (k : A -> result B) : result B :=
  match c with
  | Ok a => k a
  | Panic p => Panic p
  | OutOfFuel => OutOfFuel
  end.

Notation "'let*' x ':=' c 'in' k" := (bind c (fun x => k))
  (at level 10, x pattern, c at level 200, k at level 200).

(** The [error] values the program builds with [fmt.Errorf], one constructor
    for each message, carrying the formatted arguments; [NetlinkError] is the
    struct of that name. A [nil] error is [None]. *)
Inductive error : Type :=
| TruncatedHeader (have : Z)
    (* "truncated netlink message header (have %d bytes)" *)
| TruncatedMessage (have expected : Z)
    (* "truncated netlink message (have %d bytes, expected %d)" *)
| PidMismatch (got expected : Z)
    (* "netlink reply pid mismatch (got %d, expected %d)" *)
| SeqMismatch (got expected : Z)
    (* "netlink reply sequence number mismatch (got %d, expected %d)" *)
| NetlinkError (Errno : Z)
| MultipleMessages
    (* "multiple netlink messages recieved" *)
| TruncatedPayload (at_pos n : Z)
    (* "netlink response payload truncated (at %d, expected at least %d bytes)" *)
| WrongType (got expected : Z)
    (* "netlink response has wrong type (got %d, expected %d)" *)
| MissingAttribute (typ : Z)
    (* "missing attribute %d" *)
| Truncated (obj : string) (have expected : Z).
    (* "truncated %s (have %d bytes, expected %d)" *)

(** ** Bytes and memory *)

Definition len {A : Type} (l : list A) : Z := Z.of_nat (length l).

Definition byte_to_Z (b : byte) : Z := Z.of_N (Byte.to_N b).
Definition Z_to_byte (z : Z) : byte :=
  match Byte.of_N (Z.to_N (z mod 256)) with
  | Some b => b
  | None => x00
  end.

Inductive ByteOrder : Type := LittleEndian | BigEndian.

Fixpoint le_decode (bs : list byte) : Z :=
  match bs with
  | [] => 0
  | b :: bs' => byte_to_Z b + 256 * le_decode bs'
  end.

Fixpoint le_encode (n : nat) (v : Z) : list byte :=
  match n with
  | O => []
  | S n' => Z_to_byte v :: le_encode n' (v / 256)
  end.

(** The unsigned value of a field of [length bs] bytes, and its bytes. *)
Definition decode (bo : ByteOrder) (bs : list byte) : Z :=
  match bo with
  | LittleEndian => le_decode bs
  | BigEndian => le_decode (rev bs)
  end.

Definition encode (bo : ByteOrder) (n : nat) (v : Z) : list byte :=
  match bo with
  | LittleEndian => le_encode n v
  | BigEndian => rev (le_encode n v)
  end.

(** [&data[pos]]: the address of an element, an index into [data]. *)
Definition elem_addr (data : list byte) (pos : Z) : result Z :=
  if (0 <=? pos) && (pos <? len data) then Ok pos else Panic IndexOutOfRange.

(** Reading and writing [n] bytes at an address obtained from a cast. *)
Definition load (bo : ByteOrder) (data : list byte) (addr : Z) (n : nat) : result Z :=
  if (0 <=? addr) && (addr + Z.of_nat n <=? len data)
  then Ok (decode bo (firstn n (skipn (Z.to_nat addr) data)))
  else Panic UnsafeAccess.

Definition store (bo : ByteOrder) (data : list byte) (addr : Z) (n : nat) (v : Z)
  : result (list byte) :=
  if (0 <=? addr) && (addr + Z.of_nat n <=? len data)
  then Ok (firstn (Z.to_nat addr) data ++ encode bo n v
           ++ skipn (Z.to_nat addr + n) data)
  else Panic UnsafeAccess.

(** [data[lo:hi]] of a slice whose capacity is its length (a received
    datagram): the bytes of the result. *)
Definition slice (data : list byte) (lo hi : Z) : result (list byte) :=
  if (0 <=? lo) && (lo <=? hi) && (hi <=? len data)
  then Ok (firstn (Z.to_nat (hi - lo)) (skipn (Z.to_nat lo) data))
  else Panic SliceBoundsOutOfRange.

(** A sub-slice that is read through a pointer cast keeps the memory of its
    parent: [mem] is the parent, [base] the index of the first byte of the
    sub-slice in it, [sublen] its length. *)
Record subslice : Type := { mem : list byte; base : Z; sublen : Z }.

Definition reslice (data : list byte) (lo hi : Z) : result subslice :=
  if (0 <=? lo) && (lo <=? hi) && (hi <=? len data)
  then Ok {| mem := data; base := lo; sublen := hi - lo |}
  else Panic SliceBoundsOutOfRange.

(** ** The parts of Go's [syscall] package the program uses (linux) *)

Module syscall.

Definition NLMSG_HDRLEN : Z := 16.
Definition NLMSG_ALIGNTO : Z := 4.
Definition RTA_ALIGNTO : Z := 4.
Definition SizeofRtAttr : Z := 4.
Definition NLMSG_ERROR : Z := 2.

(** A field of a struct: its offset and its width in bytes. *)
Definition field : Type := (Z * nat)%type.

(** [type NlMsghdr struct { Len uint32; Type uint16; Flags uint16;
                            Seq uint32; Pid uint32 }] *)
Module NlMsghdr.
Definition Len : field := (0, 4%nat).
Definition Type_ : field := (4, 2%nat).
Definition Flags : field := (6, 2%nat).
Definition Seq : field := (8, 4%nat).
Definition Pid : field := (12, 4%nat).
End NlMsghdr.

(** [type RtAttr struct { Len uint16; Type uint16 }] *)
Module RtAttr.
Definition Len : field := (0, 2%nat).
Definition Type_ : field := (2, 2%nat).
End RtAttr.

(** [type NlMsgerr struct { Error int32; Msg NlMsghdr }] *)
Module NlMsgerr.
Definition Error : field := (0, 4%nat).
End NlMsgerr.

End syscall.
Import syscall.

(** [p.f] and [p.f = v] for a pointer [p] into [data]. *)
Definition get_field (bo : ByteOrder) (data : list byte) (p : Z) (f : field) : result Z :=
  load bo data (p + fst f) (snd f).

Definition set_field (bo : ByteOrder) (data : list byte) (p : Z) (f : field) (v : Z)
  : result (list byte) :=
  store bo data (p + fst f) (snd f) v.

(** [func nlMsghdrAt(data []byte, pos int) *syscall.NlMsghdr], and likewise
    [rtAttrAt]. *)
Definition nlMsghdrAt (data : list byte) (pos : Z) : result Z := elem_addr data pos.
Definition rtAttrAt (data : list byte) (pos : Z) : result Z := elem_addr data pos.

(** [nlMsgerrAt], which the program calls on the payload sub-slice. *)
Definition nlMsgerrAt (payload : subslice) (pos : Z) : result Z :=
  if (0 <=? pos) && (pos <? sublen payload)
  then Ok (base payload + pos)
  else Panic IndexOutOfRange.

(** ** The response validator *)

(** [s.addr.Pid] is the only part of the socket that [checkResponse] reads. *)
Record NetlinkSocket : Type := { fd : Z; addr_Pid : Z }.

(** [syscall.Errno(-nlerr.Error)]: negation on [int32], then the conversion
    to [uintptr]. *)
Definition Errno_of_neg (e : Z) : Z := wrap_uintptr (wrap_int32 (- e)).

(** [func (s *NetlinkSocket) checkResponse(data []byte, expectedSeq uint32) error] *)
Definition checkResponse (bo : ByteOrder) (s : NetlinkSocket) (data : list byte)
    (expectedSeq : Z) : result (option error) :=
  if len data <? NLMSG_HDRLEN then Ok (Some (TruncatedHeader (len data))) else
  let* h := nlMsghdrAt data 0 in
  let* h_Len := get_field bo data h NlMsghdr.Len in
  if len data <? h_Len then Ok (Some (TruncatedMessage (len data) h_Len)) else
  let* h_Pid := get_field bo data h NlMsghdr.Pid in
  if negb (h_Pid =? addr_Pid s) then Ok (Some (PidMismatch h_Pid (addr_Pid s))) else
  let* h_Seq := get_field bo data h NlMsghdr.Seq in
  if negb (h_Seq =? expectedSeq) then Ok (Some (SeqMismatch h_Seq expectedSeq)) else
  let* payload := reslice data NLMSG_HDRLEN h_Len in
  let* h_Type := get_field bo data h NlMsghdr.Type_ in
  if h_Type =? NLMSG_ERROR then
    let* nlerr := nlMsgerrAt payload 0 in
    let* raw := get_field bo (mem payload) nlerr NlMsgerr.Error in
    let nlerr_Error := wrap_int32 raw in
    if nlerr_Error =? 0 then Ok None
    else Ok (Some (NetlinkError (Errno_of_neg nlerr_Error)))
  else
  if h_Len >? align (len data) NLMSG_ALIGNTO then Ok (Some MultipleMessages)
  else Ok None.

(** ** The message parser *)

Record NlMsgButcher : Type := { data : list byte; pos : Z }.

Definition set_pos (nlmsg : NlMsgButcher) (p : Z) : NlMsgButcher :=
  {| data := data nlmsg; pos := p |}.

Definition NewNlMsgButcher (d : list byte) : NlMsgButcher := {| data := d; pos := 0 |}.

(** [Attrs], a [map[uint16][]byte]: a stored slice is [nil] ([None]) or
    holds bytes. *)
Abbreviation Attrs := (gmap Z (option (list byte))).

Module Butcher.

(** [func (nlmsg *NlMsgButcher) Align(a int)] *)
Definition Align (nlmsg : NlMsgButcher) (a : Z) : NlMsgButcher :=
  set_pos nlmsg (align (pos nlmsg) a).

(** [func (nlmsg *NlMsgButcher) Advance(n uintptr) error] *)
Definition Advance (nlmsg : NlMsgButcher) (n : Z) : NlMsgButcher * option error :=
  let pos' := int_add (pos nlmsg) (wrap_int n) in
  if pos' >? len (data nlmsg)
  then (nlmsg, Some (TruncatedPayload (pos nlmsg) n))
  else (set_pos nlmsg pos', None).

(** [func (nlmsg *NlMsgButcher) TakeNlMsghdr(expectType uint16)], which
    returns a pointer to the header and an error; the pointer is [None]
    for [nil]. *)
Definition TakeNlMsghdr (bo : ByteOrder) (nlmsg : NlMsgButcher) (expectType : Z)
  : result (NlMsgButcher * option Z * option error) :=
  let* h := nlMsghdrAt (data nlmsg) 0 in
  let nlmsg := set_pos nlmsg (int_add (pos nlmsg) NLMSG_HDRLEN) in
  let* h_Type := get_field bo (data nlmsg) h NlMsghdr.Type_ in
  if negb (h_Type =? expectType)
  then Ok (nlmsg, None, Some (WrongType h_Type expectType))
  else Ok (nlmsg, Some h, None).

(** [func (nlmsg *NlMsgButcher) checkData(l uintptr, obj string) error] *)
Definition checkData (nlmsg : NlMsgButcher) (l : Z) (obj : string) : option error :=
  if int_add (pos nlmsg) (wrap_int l) <=? len (data nlmsg)
  then None
  else Some (Truncated obj (int_sub (len (data nlmsg)) (pos nlmsg)) l).

(** The [for] loop of [TakeAttrs]; one unit of fuel for each iteration. *)
Fixpoint TakeAttrs_loop (bo : ByteOrder) (fuel : nat) (nlmsg : NlMsgButcher)
    (attrs : Attrs) : result (NlMsgButcher * Attrs * option error) :=
  match fuel with
  | O => OutOfFuel
  | S fuel' =>
    let apos := align (pos nlmsg) RTA_ALIGNTO in
    if len (data nlmsg) <=? apos then Ok (nlmsg, attrs, None) else
    let nlmsg := set_pos nlmsg apos in
    match checkData nlmsg SizeofRtAttr "netlink attribute" with
    | Some err => Ok (nlmsg, attrs, Some err)
    | None =>
      let* rta := rtAttrAt (data nlmsg) (pos nlmsg) in
      let* rta_Len := get_field bo (data nlmsg) rta RtAttr.Len in
      let rtaLen := rta_Len in
      match checkData nlmsg rtaLen "netlink attribute" with
      | Some err => Ok (nlmsg, attrs, Some err)
      | None =>
        let valpos := align (int_add (pos nlmsg) SizeofRtAttr) RTA_ALIGNTO in
        let* rta_Type := get_field bo (data nlmsg) rta RtAttr.Type_ in
        let* val := slice (data nlmsg) valpos (int_add (pos nlmsg) rta_Len) in
        let attrs := <[rta_Type := Some val]> attrs in
        let nlmsg := set_pos nlmsg (int_add (pos nlmsg) (wrap_int rtaLen)) in
        TakeAttrs_loop bo fuel' nlmsg attrs
      end
    end
  end.

(** [func (nlmsg *NlMsgButcher) TakeAttrs() (attrs Attrs, err error)].
    Every iteration that does not leave the loop moves the cursor forward
    by at least the size of a prefix, so [S (length data)] iterations are
    never used up ([TakeAttrs_loop_fuel] below). *)
Definition TakeAttrs (bo : ByteOrder) (nlmsg : NlMsgButcher)
  : result (NlMsgButcher * Attrs * option error) :=
  TakeAttrs_loop bo (S (length (data nlmsg))) nlmsg ∅.

End Butcher.

(** ** The attribute map *)

(** [func (attrs Attrs) Get(typ uint16) ([]byte, error)]: indexing a map at
    an absent key yields the [nil] slice. *)
Definition Get (attrs : Attrs) (typ : Z) : option (list byte) * option error :=
  let val := match attrs !! typ with Some v => v | None => None end in
  match val with
  | None => (None, Some (MissingAttribute typ))
  | Some _ => (val, None)
  end.

(** [func (attrs Attrs) GetUint16(typ uint16) (uint16, error)] *)
Definition GetUint16 (bo : ByteOrder) (attrs : Attrs) (typ : Z)
  : result (Z * option error) :=
  let '(val, err) := Get attrs typ in
  match err with
  | Some _ => Ok (0, err)
  | None =>
    let bytes := match val with Some b => b | None => [] end in
    if negb (len bytes =? 2) then Ok (0, err) else
    let* p := elem_addr bytes 0 in
    let* v := load bo bytes p 2 in
    Ok (v, None)
  end.

(** ** The message builder *)

(** [buf []byte] of the builder: [arr] is the underlying array from the
    first byte of the slice on, so [cap(buf)] is its length, and [blen] is
    [len(buf)]. Memory handed out by [make] is zeroed. *)
Record NlMsgBuilder : Type := { arr : list byte; blen : Z }.

Definition cap (nlmsg : NlMsgBuilder) : Z := len (arr nlmsg).
Definition buf (nlmsg : NlMsgBuilder) : list byte := firstn (Z.to_nat (blen nlmsg)) (arr nlmsg).

(** Writing through a pointer into [buf]. *)
Definition buf_set_field (bo : ByteOrder) (nlmsg : NlMsgBuilder) (p : Z) (f : field)
    (v : Z) : result NlMsgBuilder :=
  let* b := set_field bo (buf nlmsg) p f v in
  Ok {| arr := b ++ skipn (Z.to_nat (blen nlmsg)) (arr nlmsg); blen := blen nlmsg |}.

(** [buf[:l]] *)
Definition buf_reslice (nlmsg : NlMsgBuilder) (l : Z) : result NlMsgBuilder :=
  if (0 <=? l) && (l <=? cap nlmsg)
  then Ok {| arr := arr nlmsg; blen := l |}
  else Panic SliceBoundsOutOfRange.

Module Builder.

(** [func NewNlMsgBuilder(flags uint16, typ uint16) *NlMsgBuilder] *)
Definition NewNlMsgBuilder (bo : ByteOrder) (flags typ : Z) : result NlMsgBuilder :=
  let nlmsg := {| arr := repeat x00 (Z.to_nat NLMSG_HDRLEN); blen := NLMSG_HDRLEN |} in
  let* h := nlMsghdrAt (buf nlmsg) 0 in
  let* nlmsg := buf_set_field bo nlmsg h NlMsghdr.Flags flags in
  let* nlmsg := buf_set_field bo nlmsg h NlMsghdr.Type_ typ in
  Ok nlmsg.

(** [for l > c { c = (c + 1) * 3 / 2 }] *)
Fixpoint expand_loop (fuel : nat) (l c : Z) : result Z :=
  match fuel with
  | O => OutOfFuel
  | S fuel' =>
    if l >? c
    then expand_loop fuel' l (int_quot (int_mul (int_add c 1) 3) 2)
    else Ok c
  end.

(** [func expand(buf []byte, l int) []byte]. While it does not overflow
    the capacity grows by half at each iteration, so the loop is given
    more iterations than any [int] can ask for. *)
Definition expand (nlmsg : NlMsgBuilder) (l : Z) : result NlMsgBuilder :=
  let c := int_quot (int_mul (int_add (cap nlmsg) 1) 3) 2 in
  let* c := expand_loop 128 l c in
  if (0 <=? blen nlmsg) && (blen nlmsg <=? c)
  then Ok {| arr := buf nlmsg ++ repeat x00 (Z.to_nat (c - blen nlmsg));
             blen := blen nlmsg |}
  else Panic MakeSliceOutOfRange.

(** [func (nlmsg *NlMsgBuilder) Align(a int)] *)
Definition Align (nlmsg : NlMsgBuilder) (a : Z) : result NlMsgBuilder :=
  let l := align (blen nlmsg) a in
  let* nlmsg := (if l >? cap nlmsg then expand nlmsg l else Ok nlmsg) in
  buf_reslice nlmsg l.

(** [func (nlmsg *NlMsgBuilder) Grow(size uintptr) int] *)
Definition Grow (nlmsg : NlMsgBuilder) (size : Z) : result (NlMsgBuilder * Z) :=
  let pos := blen nlmsg in
  let l := int_add pos (wrap_int size) in
  let* nlmsg := (if l >? cap nlmsg then expand nlmsg l else Ok nlmsg) in
  let* nlmsg := buf_reslice nlmsg l in
  Ok (nlmsg, pos).

(** [func (nlmsg *NlMsgBuilder) Finish() (res []byte, seq uint32)], with
    the global [nextSeqNo] passed in and out; [nlmsg.buf] is [nil]
    afterwards. *)
Definition Finish (bo : ByteOrder) (nlmsg : NlMsgBuilder) (nextSeqNo : Z)
  : result (list byte * Z * NlMsgBuilder * Z) :=
  let* h := nlMsghdrAt (buf nlmsg) 0 in
  let* nlmsg := buf_set_field bo nlmsg h NlMsghdr.Len (wrap_uint32 (blen nlmsg)) in
  let seq := wrap_uint32 (nextSeqNo + 1) in
  let* nlmsg := buf_set_field bo nlmsg h NlMsghdr.Seq seq in
  let res := buf nlmsg in
  Ok (res, seq, {| arr := []; blen := 0 |}, seq).

(** [func (nlmsg *NlMsgBuilder) PutRtAttr(typ uint16, gen func())]; the
    closure [gen] acts on the builder. *)
Definition PutRtAttr (bo : ByteOrder) (nlmsg : NlMsgBuilder) (typ : Z)
    (gen : NlMsgBuilder -> result NlMsgBuilder) : result NlMsgBuilder :=
  let* nlmsg := Align nlmsg NLMSG_ALIGNTO in
  let* (nlmsg, pos) := Grow nlmsg SizeofRtAttr in
  let* nlmsg := Align nlmsg RTA_ALIGNTO in
  let* nlmsg := gen nlmsg in
  let* rta := rtAttrAt (buf nlmsg) pos in
  let* nlmsg := buf_set_field bo nlmsg rta RtAttr.Type_ typ in
  buf_set_field bo nlmsg rta RtAttr.Len (wrap_uint16 (int_sub (blen nlmsg) pos)).

(** [copy(nlmsg.buf[pos:], str)] followed by [nlmsg.buf[pos + l] = 0] *)
Definition addStringZ (nlmsg : NlMsgBuilder) (str : list byte) : result NlMsgBuilder :=
  let l := len str in
  let* (nlmsg, pos) := Grow nlmsg (wrap_uintptr (wrap_uintptr l + 1)) in
  let* dst := slice (buf nlmsg) pos (blen nlmsg) in
  let n := Nat.min (length dst) (length str) in
  let b := firstn (Z.to_nat pos) (buf nlmsg) ++ firstn n str ++ skipn n dst in
  let* i := elem_addr b (int_add pos l) in
  let b := firstn (Z.to_nat i) b ++ x00 :: skipn (S (Z.to_nat i)) b in
  Ok {| arr := b ++ skipn (Z.to_nat (blen nlmsg)) (arr nlmsg); blen := blen nlmsg |}.

(** [func (nlmsg *NlMsgBuilder) PutStringRtAttr(typ uint16, str string)] *)
Definition PutStringRtAttr (bo : ByteOrder) (nlmsg : NlMsgBuilder) (typ : Z)
    (str : list byte) : result NlMsgBuilder :=
  PutRtAttr bo nlmsg typ (fun nlmsg => addStringZ nlmsg str).

End Builder.

(** ** Properties of the specification *)

(** [Advance] at one state and argument: past the end of the data it
    returns the truncated-payload error and the parser is as it was;
    otherwise the cursor has moved by [n]. *)
Definition Advance_spec (nlmsg : NlMsgButcher) (n : Z) : Prop :=
  (pos nlmsg + n > len (data nlmsg) ->
   Butcher.Advance nlmsg n = (nlmsg, Some (TruncatedPayload (pos nlmsg) n))) /\
  (pos nlmsg + n <= len (data nlmsg) ->
   Butcher.Advance nlmsg n = (set_pos nlmsg (pos nlmsg + n), None)).

(** A buffer no longer than the Go runtime can allocate on a 64-bit
    platform ([maxAlloc], 2^48 bytes). *)
Definition maxAlloc : Z := 2 ^ 48.
Definition allocatable (data : list byte) : Prop := len data <= maxAlloc.

(** The fields of the message header at the start of [data]. *)
Definition hdr (bo : ByteOrder) (data : list byte) (f : field) : result Z :=
  get_field bo data 0 f.

(** [tlv_at bo data p t v]: a well-formed attribute record of type [t] and
    value [v] lies at offset [p] of [data]: its prefix declares the length
    [SizeofRtAttr + len v] and the type [t], and the bytes after the prefix
    are [v]. *)
Definition tlv_at (bo : ByteOrder) (data : list byte) (p t : Z) (v : list byte) : Prop :=
  get_field bo data p RtAttr.Len = Ok (SizeofRtAttr + len v) /\
  get_field bo data p RtAttr.Type_ = Ok t /\
  slice data (p + SizeofRtAttr) (p + SizeofRtAttr + len v) = Ok v.

(** [tlv_stream bo data p rs]: from offset [p] to its end, [data] is the
    sequence of well-formed records [rs], each one at the next offset that
    is aligned to [RTA_ALIGNTO]. *)
Fixpoint tlv_stream (bo : ByteOrder) (data : list byte) (p : Z) (rs : list (Z * list byte))
  : Prop :=
  let a := 4 * ((p + 3) / 4) in
  match rs with
  | [] => len data <= a
  | (t, v) :: rs' =>
    tlv_at bo data a t v /\ tlv_stream bo data (a + SizeofRtAttr + len v) rs'
  end.

(** The map a decoder builds from records in order, later ones overwriting. *)
Definition attrs_of (rs : list (Z * list byte)) (m : Attrs) : Attrs :=
  fold_left (fun m r => <[fst r := Some (snd r)]> m) rs m.

Definition eth0 : list byte := list_byte_of_string "eth0".
Definition eth0z : list byte := eth0 ++ [x00].

(** The bytes of a message header with the given field values. *)
Definition mk_hdr (bo : ByteOrder) (hlen typ flags seq pid : Z) : list byte :=
  encode bo 4 hlen ++ encode bo 2 typ ++ encode bo 2 flags
  ++ encode bo 4 seq ++ encode bo 4 pid.

(** The outcomes [TakeAttrs] can have: a map with no error, a map with the
    truncated-attribute error, or the panic of a slice expression whose
    bounds are out of order. *)
Definition TakeAttrs_outcome (r : result (NlMsgButcher * Attrs * option error)) : Prop :=
  match r with
  | Ok (_, _, None) => True
  | Ok (_, _, Some (Truncated _ _ _)) => True
  | Panic SliceBoundsOutOfRange => True
  | _ => False
  end.

(** The scenario of the round-trip property: a message with one string
    attribute is built and finished, and a received buffer is parsed, header
    first and attributes next. *)
Definition build_string_message (bo : ByteOrder) (flags typ attr : Z) (str : list byte)
    (nextSeqNo : Z) : result (list byte * Z) :=
  let* nlmsg := Builder.NewNlMsgBuilder bo flags typ in
  let* nlmsg := Builder.PutStringRtAttr bo nlmsg attr str in
  let* (res, seq, _, _) := Builder.Finish bo nlmsg nextSeqNo in
  Ok (res, seq).

Definition parse_message (bo : ByteOrder) (expectType : Z) (res : list byte)
  : result (option Z * Attrs * option error) :=
  let* (nlmsg, h, err) := Butcher.TakeNlMsghdr bo (NewNlMsgButcher res) expectType in
  match err with
  | Some _ => Ok (h, ∅, err)
  | None =>
    let* (_, attrs, err) := Butcher.TakeAttrs bo nlmsg in
    Ok (h, attrs, err)
  end.

(** ** Builders and attribute streams as byte strings *)

(** The builder whose buffer holds the bytes [b], with capacity [c] and a
    zeroed spare capacity, which is how [make] and [expand] leave it. *)
Definition builder_of (b : list byte) (c : Z) : NlMsgBuilder :=
  {| arr := b ++ repeat x00 (Z.to_nat (c - len b)); blen := len b |}.

(** The zero bytes that bring the offset [p] up to a multiple of [a]. *)
Definition padding (p a : Z) : list byte :=
  repeat x00 (Z.to_nat (a * ((p + a - 1) / a) - p)).

(** The bytes of one attribute record: the prefix, with the declared length
    and the type, and the value. *)
Definition tlv_bytes (bo : ByteOrder) (t : Z) (v : list byte) : list byte :=
  encode bo 2 (SizeofRtAttr + len v) ++ encode bo 2 t ++ v.

(** The bytes of a sequence of records laid out from the offset [p] on, each
    one after the padding that aligns it. *)
Fixpoint stream_bytes (bo : ByteOrder) (p : Z) (rs : list (Z * list byte)) : list byte :=
  match rs with
  | [] => []
  | (t, v) :: rs' =>
    let r := padding p RTA_ALIGNTO ++ tlv_bytes bo t v in
    r ++ stream_bytes bo (p + len r) rs'
  end.

(** A string attribute carries the string and a terminating zero byte. *)
Definition stringz (r : Z * list byte) : Z * list byte := (fst r, snd r ++ [x00]).

(** A value that fits in an attribute, and a type that fits in its field. *)
Definition attr_ok (r : Z * list byte) : Prop :=
  is_uint16 (fst r) /\ SizeofRtAttr + len (snd r) < 2 ^ 16.

(** Calls of [PutStringRtAttr] in sequence, and a whole message built from
    string attributes. *)
Fixpoint put_strings (bo : ByteOrder) (nlmsg : NlMsgBuilder) (l : list (Z * list byte))
  : result NlMsgBuilder :=
  match l with
  | [] => Ok nlmsg
  | (a, s) :: l' =>
    let* nlmsg := Builder.PutStringRtAttr bo nlmsg a s in
    put_strings bo nlmsg l'
  end.

Definition build_message (bo : ByteOrder) (flags typ : Z) (l : list (Z * list byte))
    (nextSeqNo : Z) : result (list byte * Z) :=
  let* nlmsg := Builder.NewNlMsgBuilder bo flags typ in
  let* nlmsg := put_strings bo nlmsg l in
  let* (res, seq, _, _) := Builder.Finish bo nlmsg nextSeqNo in
  Ok (res, seq).

(** A builder as the program leaves it: the length within the capacity, the
    capacity within what the runtime allocates, and the spare capacity
    zeroed. *)
Definition builder_wf (nlmsg : NlMsgBuilder) : Prop :=
  0 <= blen nlmsg <= cap nlmsg /\ cap nlmsg <= maxAlloc /\
  skipn (Z.to_nat (blen nlmsg)) (arr nlmsg)
    = repeat x00 (Z.to_nat (cap nlmsg - blen nlmsg)).

(** [tlv_prefix bo data p rs q]: from offset [p] on, [data] holds the
    well-formed records [rs], the last of which ends at [q]; what follows
    [q] is not constrained. *)
Fixpoint tlv_prefix (bo : ByteOrder) (data : list byte) (p : Z) (rs : list (Z * list byte))
    (q : Z) : Prop :=
  let a := 4 * ((p + 3) / 4) in
  match rs with
  | [] => q = p
  | (t, v) :: rs' =>
    tlv_at bo data a t v /\ tlv_prefix bo data (a + SizeofRtAttr + len v) rs' q
  end.

(** The cursor after [TakeAttrs]: on a return, with or without the
    truncated-attribute error, the parser still holds the buffer [d] and its
    cursor is between [p] and the end of [d]; the only panic is the one of
    the slice expression. *)
Definition TakeAttrs_cursor_ok (d : list byte) (p : Z)
    (r : result (NlMsgButcher * Attrs * option error)) : Prop :=
  match r with
  | Ok (st, _, None) => data st = d /\ p <= pos st <= len d
  | Ok (st, _, Some (Truncated _ _ _)) => data st = d /\ p <= pos st < len d
  | Panic SliceBoundsOutOfRange => True
  | _ => False
  end.

(** ** Facts on the fixed-width operations *)

Lemma wrap_int_id x : is_int x -> wrap_int x = x.
Proof.
  unfold is_int, min_int, max_int, wrap_int. intros H.
  rewrite Z.mod_small; lia.
Qed.

Lemma wrap_int_range x : is_int (wrap_int x).
Proof.
  unfold is_int, min_int, max_int, wrap_int.
  pose proof (Z.mod_pos_bound (x + 2 ^ 63) (2 ^ 64) ltac:(lia)). lia.
Qed.

Lemma wrap_int_sub_l x y : wrap_int (wrap_int x - y) = wrap_int (x - y).
Proof.
  unfold wrap_int. f_equal.
  replace ((x + 2 ^ 63) mod 2 ^ 64 - 2 ^ 63 - y + 2 ^ 63)
    with ((x + 2 ^ 63) mod 2 ^ 64 - y) by lia.
  rewrite Zminus_mod_idemp_l. f_equal. lia.
Qed.

Lemma wrap_int_add_r x y : wrap_int (x + wrap_int y) = wrap_int (x + y).
Proof.
  unfold wrap_int. f_equal.
  replace (x + ((y + 2 ^ 63) mod 2 ^ 64 - 2 ^ 63) + 2 ^ 63)
    with (x + (y + 2 ^ 63) mod 2 ^ 64) by lia.
  rewrite Zplus_mod_idemp_r. f_equal. lia.
Qed.

Lemma land_neg_pow2 x k : 0 <= k -> Z.land x (- 2 ^ k) = 2 ^ k * (x / 2 ^ k).
Proof.
  intros Hk.
  replace (- 2 ^ k) with (Z.lnot (Z.ones k)).
  2:{ rewrite Z.ones_equiv. unfold Z.lnot. lia. }
  rewrite <- Z.ldiff_land.
  rewrite Z.ldiff_ones_r by lia.
  rewrite Z.shiftr_div_pow2, Z.shiftl_mul_pow2 by lia. lia.
Qed.

Lemma pow2_le_max_int k : 0 <= k -> 2 ^ k <= max_int -> k <= 62.
Proof.
  intros Hk H. destruct (Z_le_gt_dec k 62) as [|Hgt]; [assumption|].
  exfalso. assert (2 ^ 63 <= 2 ^ k) by (apply Z.pow_le_mono_r; lia).
  unfold max_int in H. lia.
Qed.

(** Without overflow [align] is the usual rounding formula. *)
Lemma align_no_overflow n k :
  0 <= n -> 0 <= k -> n + 2 ^ k - 1 <= max_int ->
  align n (2 ^ k) = 2 ^ k * ((n + 2 ^ k - 1) / 2 ^ k).
Proof.
  intros Hn Hk Hov.
  assert (Hp : 0 < 2 ^ k) by (apply Z.pow_pos_nonneg; lia).
  unfold align, int_sub, int_add, int_neg.
  rewrite wrap_int_sub_l.
  rewrite (wrap_int_id (n + 2 ^ k - 1)) by (unfold is_int, min_int, max_int in *; lia).
  rewrite (wrap_int_id (- 2 ^ k)) by (unfold is_int, min_int, max_int in *; lia).
  apply land_neg_pow2; assumption.
Qed.

Lemma align_4 n :
  0 <= n -> n + 3 <= max_int -> align n 4 = 4 * ((n + 3) / 4).
Proof.
  intros Hn Hov. change 4 with (2 ^ 2) at 1.
  rewrite align_no_overflow by (simpl; lia).
  change (2 ^ 2) with 4. f_equal. f_equal. lia.
Qed.

Lemma align_4_bounds n :
  0 <= n -> n + 3 <= max_int -> n <= align n 4 <= n + 3 /\ (align n 4) mod 4 = 0.
Proof.
  intros Hn Hov. rewrite align_4 by assumption.
  pose proof (Z.div_mod (n + 3) 4 ltac:(lia)).
  pose proof (Z.mod_pos_bound (n + 3) 4 ltac:(lia)).
  split; [lia|]. rewrite Z.mul_comm. apply Z_mod_mult.
Qed.

Lemma align_4_aligned n :
  0 <= n -> n + 3 <= max_int -> n mod 4 = 0 -> align n 4 = n.
Proof.
  intros Hn Hov Hm. rewrite align_4 by assumption.
  pose proof (Z.div_mod n 4 ltac:(lia)).
  replace (n + 3) with (3 + (n / 4) * 4) by lia.
  rewrite Z.div_add by lia. change (3 / 4) with 0. lia.
Qed.

(** ** C8 *)

(** Without overflow every part of the alignment property holds. *)
Lemma align_spec_no_overflow n a :
  0 <= n -> is_pow2 a -> n + a - 1 <= max_int -> align_spec n a.
Proof.
  intros Hn [k [Hk ->]] Hov.
  assert (Hp : 0 < 2 ^ k) by (apply Z.pow_pos_nonneg; lia).
  pose proof (align_no_overflow n k Hn Hk Hov) as Ha.
  set (a := 2 ^ k) in *.
  pose proof (Z.div_mod (n + a - 1) a ltac:(lia)) as Hdm.
  pose proof (Z.mod_pos_bound (n + a - 1) a Hp) as Hmb.
  set (q := (n + a - 1) / a) in *.
  assert (Hlo : n <= a * q) by lia.
  assert (Hhi : a * q <= n + a - 1) by lia.
  unfold align_spec. rewrite !Ha.
  assert (Hidem : align (a * q) a = a * q).
  { pose proof (align_no_overflow (a * q) k) as Hq. fold a in Hq.
    assert (Hroom : a * q + a - 1 <= max_int).
    { destruct (Z.eq_dec q 0) as [-> | Hq0]; [lia|].
      assert (Hq1 : 1 <= q) by nia.
      assert (Hk62 : k <= 62) by (apply pow2_le_max_int; fold a; nia).
      assert (Hsplit : 2 ^ 63 = a * 2 ^ (63 - k)).
      { unfold a. rewrite <- Z.pow_add_r by lia. f_equal. lia. }
      unfold max_int in *. rewrite Hsplit in *.
      assert (q < 2 ^ (63 - k)) by nia. nia. }
    rewrite Hq by lia. f_equal.
    replace (a * q + a - 1) with ((a - 1) + q * a) by lia.
    rewrite Z.div_add by lia. rewrite Z.div_small by lia. lia. }
  repeat split.
  - exists q. lia.
  - exact Hlo.
  - intros m Hm [c ->].
    assert (q <= c); [|nia].
    destruct (Z_le_gt_dec q c) as [|Hgt]; [assumption|]. exfalso. nia.
  - exact Hidem.
  - apply Z.rem_divide; [lia|]. exists q. lia.
  - unfold int_sub. rewrite wrap_int_id; [lia|].
    unfold is_int, min_int, max_int in *. lia.
Qed.

(** [align] whatever the sum does: a multiple of the alignment at or below
    the wrapped sum. *)
Lemma align_pow2 n k :
  0 <= k <= 62 ->
  align n (2 ^ k) = 2 ^ k * (wrap_int (n + 2 ^ k - 1) / 2 ^ k).
Proof.
  intros Hk.
  assert (Hp : 0 < 2 ^ k) by (apply Z.pow_pos_nonneg; lia).
  assert (Hle : 2 ^ k <= 2 ^ 62) by (apply Z.pow_le_mono_r; lia).
  unfold align, int_sub, int_add, int_neg.
  rewrite wrap_int_sub_l.
  rewrite (wrap_int_id (- 2 ^ k)) by (unfold is_int, min_int, max_int; lia).
  apply land_neg_pow2. lia.
Qed.

(** The three equations hold for every [int] [n >= 0] and every power of
    two that is an [int], also when the sum [n + a - 1] wraps around. *)
Lemma align_algebra_all n k :
  0 <= n <= max_int -> 0 <= k <= 62 -> align_algebra n (2 ^ k).
Proof.
  intros Hn Hk. unfold max_int in Hn.
  assert (Hp : 0 < 2 ^ k) by (apply Z.pow_pos_nonneg; lia).
  assert (Hle : 2 ^ k <= 2 ^ 62) by (apply Z.pow_le_mono_r; lia).
  assert (H64 : 2 ^ 64 = 2 ^ (64 - k) * 2 ^ k)
    by (rewrite <- Z.pow_add_r by lia; f_equal; lia).
  assert (H63 : 2 ^ 63 = 2 ^ (63 - k) * 2 ^ k)
    by (rewrite <- Z.pow_add_r by lia; f_equal; lia).
  assert (Hp64 : 0 < 2 ^ (64 - k)) by (apply Z.pow_pos_nonneg; lia).
  assert (Hp63 : 0 < 2 ^ (63 - k)) by (apply Z.pow_pos_nonneg; lia).
  unfold align_algebra. rewrite (align_pow2 n k Hk).
  pose proof (align_pow2 (2 ^ k * (wrap_int (n + 2 ^ k - 1) / 2 ^ k)) k Hk) as Hidem.
  set (a := 2 ^ k) in *.
  set (e64 := 2 ^ (64 - k)) in *. set (e63 := 2 ^ (63 - k)) in *.
  (* the wrapped sum and its quotient *)
  set (j := (n + a - 1 + 2 ^ 63) / 2 ^ 64).
  assert (Hx : wrap_int (n + a - 1) = n + a - 1 + (- (e64 * j)) * a).
  { unfold wrap_int, j.
    pose proof (Z.div_mod (n + a - 1 + 2 ^ 63) (2 ^ 64) ltac:(lia)) as Hdm.
    rewrite H64 in Hdm at 1. lia. }
  pose proof (wrap_int_range (n + a - 1)) as Hxr.
  unfold is_int, min_int, max_int in Hxr.
  set (x := wrap_int (n + a - 1)) in *.
  pose proof (Z.div_mod x a ltac:(lia)) as Hxdm.
  pose proof (Z.mod_pos_bound x a Hp) as Hxmb.
  set (q := x / a) in *.
  assert (Hq : q = (n + a - 1) / a + - (e64 * j))
    by (unfold q; rewrite Hx; apply Z.div_add; lia).
  pose proof (Z.div_mod (n + a - 1) a ltac:(lia)) as Hdm.
  pose proof (Z.mod_pos_bound (n + a - 1) a Hp) as Hmb.
  set (q0 := (n + a - 1) / a) in *.
  (* the result is an [int], with room for [a - 1] above it *)
  assert (Hqlo : - e63 <= q) by nia.
  assert (Hqhi : q <= e63 - 1) by nia.
  split; [|split].
  - rewrite Hidem.
    rewrite (wrap_int_id (a * q + a - 1)) by (unfold is_int, min_int, max_int; nia).
    f_equal. replace (a * q + a - 1) with ((a - 1) + q * a) by lia.
    rewrite Z.div_add by lia. rewrite Z.div_small by lia. lia.
  - apply Z.rem_divide; [lia|]. exists q. lia.
  - unfold int_sub, wrap_int.
    replace (a * q - n + 2 ^ 63) with ((a * q0 - n + 2 ^ 63) + (- j) * 2 ^ 64)
      by (rewrite Hq, H64; lia).
    rewrite Z_mod_plus_full. rewrite Z.mod_small by lia. lia.
Qed.

(** C8 (as amended): for every [int] [n >= 0] and every power of two [a]
    that is an [int], aligning twice is aligning once, [align n a % a = 0]
    and [align n a - n < a]; and when the addition [n + a - 1] does not
    exceed the largest [int], [align n a] is the smallest multiple of [a]
    that is [>= n]. *)
Theorem align_least_multiple n a :
  0 <= n <= max_int -> is_pow2 a -> a <= max_int ->
  align_algebra n a /\ (n + a - 1 <= max_int -> align_rounds_up n a).
Proof.
  intros Hn [k [Hk ->]] Ha.
  pose proof (pow2_le_max_int k Hk Ha) as Hk62.
  split.
  - apply align_algebra_all; [assumption | lia].
  - intros Hov.
    exact (proj1 (align_spec_no_overflow n (2 ^ k) ltac:(lia)
                    (ex_intro _ k (conj Hk eq_refl)) Hov)).
Qed.

(** At [n = 5], and at the largest [int], where the sum wraps around. *)
Lemma align_least_multiple_witness :
  (align_algebra 5 4 /\ align_rounds_up 5 4) /\ align_algebra max_int 4.
Proof.
  assert (H4 : is_pow2 4) by (exists 2; split; [lia | reflexivity]).
  split.
  - destruct (align_least_multiple 5 4) as [Halg Hup];
      [unfold max_int; lia | exact H4 | unfold max_int; lia |].
    split; [exact Halg | apply Hup; unfold max_int; lia].
  - apply (align_least_multiple max_int 4);
      [unfold max_int; lia | exact H4 | unfold max_int; lia].
Defined.

(** C8 as stated fails when [n + a - 1] overflows [int]: at the largest
    [int] the sum wraps around and [align] returns the smallest [int], which
    is below [n]. *)
Lemma align_overflow_counterexample :
  0 <= max_int /\ is_pow2 4 /\ align max_int 4 = min_int /\ ~ align_spec max_int 4.
Proof.
  assert (He : align max_int 4 = min_int) by (vm_compute; reflexivity).
  split; [unfold max_int; lia|].
  split; [exists 2; split; [lia | reflexivity]|].
  split; [exact He|].
  intros [[_ [Hle _]] _]. rewrite He in Hle. vm_compute in Hle. apply Hle. reflexivity.
Qed.

(** ** Encoding and decoding of fields *)

Lemma byte_to_Z_range b : 0 <= byte_to_Z b < 256.
Proof.
  unfold byte_to_Z. pose proof (Byte.to_N_bounded b). lia.
Qed.

Lemma byte_to_Z_to_byte z : byte_to_Z (Z_to_byte z) = z mod 256.
Proof.
  unfold byte_to_Z, Z_to_byte.
  pose proof (Z.mod_pos_bound z 256 ltac:(lia)) as Hm.
  destruct (Byte.of_N (Z.to_N (z mod 256))) as [b|] eqn:Hb.
  - apply Byte.to_of_N in Hb. rewrite Hb. lia.
  - apply Byte.of_N_None_iff in Hb. lia.
Qed.

Lemma length_le_encode n v : length (le_encode n v) = n.
Proof. revert v. induction n as [|n IH]; intros v; simpl; [reflexivity | now rewrite IH]. Qed.

Lemma length_encode bo n v : length (encode bo n v) = n.
Proof. destruct bo; simpl; [|rewrite length_rev]; apply length_le_encode. Qed.

Lemma le_decode_encode n v : le_decode (le_encode n v) = v mod 256 ^ Z.of_nat n.
Proof.
  revert v. induction n as [|n IH]; intros v.
  - simpl. now rewrite Z.mod_1_r.
  - cbn [le_encode le_decode]. rewrite byte_to_Z_to_byte, IH.
    rewrite Nat2Z.inj_succ, Z.pow_succ_r by lia.
    assert (Hp : 0 < 256 ^ Z.of_nat n) by (apply Z.pow_pos_nonneg; lia).
    rewrite (Z.rem_mul_r v 256 (256 ^ Z.of_nat n)) by lia. lia.
Qed.

Lemma decode_encode bo n v :
  0 <= v < 256 ^ Z.of_nat n -> decode bo (encode bo n v) = v.
Proof.
  intros Hv. destruct bo; simpl; [|rewrite rev_involutive];
    rewrite le_decode_encode; apply Z.mod_small; assumption.
Qed.

Lemma le_decode_range bs : 0 <= le_decode bs < 256 ^ len bs.
Proof.
  unfold len. induction bs as [|b bs IH].
  - simpl. lia.
  - cbn [le_decode length]. rewrite Nat2Z.inj_succ, Z.pow_succ_r by lia.
    pose proof (byte_to_Z_range b). lia.
Qed.

Lemma decode_range bo bs : 0 <= decode bo bs < 256 ^ len bs.
Proof.
  destruct bo; simpl; [apply le_decode_range|].
  pose proof (le_decode_range (rev bs)) as H.
  unfold len in *. now rewrite length_rev in H.
Qed.

Lemma len_firstn_skipn (data : list byte) (a : Z) (n : nat) :
  0 <= a -> a + Z.of_nat n <= len data ->
  length (firstn n (skipn (Z.to_nat a) data)) = n.
Proof.
  unfold len. intros Ha Hb. rewrite length_firstn, length_skipn. lia.
Qed.

(** A load inside the slice succeeds, and yields a value of the width read. *)
Lemma load_in_bounds bo data a n :
  0 <= a -> a + Z.of_nat n <= len data ->
  load bo data a n = Ok (decode bo (firstn n (skipn (Z.to_nat a) data))).
Proof.
  intros Ha Hb. unfold load.
  destruct (Z.leb_spec 0 a); [|lia].
  destruct (Z.leb_spec (a + Z.of_nat n) (len data)); [reflexivity | lia].
Qed.

Lemma load_Ok_inv bo data a n v :
  load bo data a n = Ok v ->
  0 <= a /\ a + Z.of_nat n <= len data /\ 0 <= v < 256 ^ Z.of_nat n.
Proof.
  unfold load. intros H.
  destruct (Z.leb_spec 0 a); [|discriminate].
  destruct (Z.leb_spec (a + Z.of_nat n) (len data)); [|discriminate].
  simpl in H. injection H as <-.
  pose proof (decode_range bo (firstn n (skipn (Z.to_nat a) data))) as Hr.
  unfold len in Hr at 1. rewrite len_firstn_skipn in Hr by assumption. auto.
Qed.

(** Reading back the bytes of an encoded value. *)
Lemma load_encoded bo data a n v :
  0 <= a -> a + Z.of_nat n <= len data ->
  firstn n (skipn (Z.to_nat a) data) = encode bo n v ->
  0 <= v < 256 ^ Z.of_nat n ->
  load bo data a n = Ok v.
Proof.
  intros Ha Hb He Hv. rewrite load_in_bounds by assumption.
  rewrite He. f_equal. apply decode_encode. assumption.
Qed.


(** ** The cursor primitives *)

Lemma Advance_no_wrap nlmsg n :
  is_int (pos nlmsg) -> 0 <= n -> pos nlmsg + n <= max_int ->
  int_add (pos nlmsg) (wrap_int n) = pos nlmsg + n.
Proof.
  intros Hp Hn Hov. unfold int_add. rewrite wrap_int_add_r.
  apply wrap_int_id. unfold is_int, min_int, max_int in *; lia.
Qed.

(** C10 (as amended): for every parser state and every [n] such that
    [pos + n] does not exceed the largest [int], [Advance] is atomic on
    failure: if [pos + n] is past the end of the data it returns the
    truncated-payload error and leaves the parser as it was, and otherwise
    it moves the cursor by exactly [n]. *)
Theorem Advance_atomic nlmsg n :
  is_int (pos nlmsg) -> 0 <= n -> pos nlmsg + n <= max_int ->
  Advance_spec nlmsg n.
Proof.
  intros Hp Hn Hov. unfold Advance_spec, Butcher.Advance.
  rewrite (Advance_no_wrap nlmsg n Hp Hn Hov).
  split; intros H.
  - destruct (Z.gtb_spec (pos nlmsg + n) (len (data nlmsg))); [reflexivity | lia].
  - destruct (Z.gtb_spec (pos nlmsg + n) (len (data nlmsg))); [lia | reflexivity].
Qed.

Lemma Advance_atomic_witness :
  Advance_spec {| data := [x01; x02; x03]; pos := 1 |} 2 /\
  Advance_spec {| data := [x01; x02; x03]; pos := 1 |} 3.
Proof.
  split.
  - apply (Advance_atomic {| data := [x01; x02; x03]; pos := 1 |} 2);
      [unfold is_int, min_int, max_int; cbn [pos]; lia | lia | unfold max_int; cbn [pos]; lia].
  - apply (Advance_atomic {| data := [x01; x02; x03]; pos := 1 |} 3);
      [unfold is_int, min_int, max_int; cbn [pos]; lia | lia | unfold max_int; cbn [pos]; lia].
Defined.

(** C10 as stated fails for an [n] whose conversion to [int] is negative:
    [Advance] then moves the cursor backwards and reports no error. *)
Lemma Advance_wrap_counterexample :
  is_uintptr (2 ^ 64 - 1) /\
  Butcher.Advance {| data := []; pos := 0 |} (2 ^ 64 - 1)
    = ({| data := []; pos := -1 |}, None) /\
  ~ Advance_spec {| data := []; pos := 0 |} (2 ^ 64 - 1).
Proof.
  split; [unfold is_uintptr; lia|].
  split; [vm_compute; reflexivity|].
  intros [Hfail _].
  assert (Hgt : pos {| data := []; pos := 0 |} + (2 ^ 64 - 1)
                > len (data {| data := []; pos := 0 |})) by (vm_compute; reflexivity).
  specialize (Hfail Hgt). vm_compute in Hfail. discriminate Hfail.
Qed.

(** ** The attribute map *)

(** C2: a stored value of one byte, which is not [nil] and not two bytes
    long. [GetUint16] returns the value [0] together with the [nil] error:
    the [err] it returns in that branch is the one [Get] returned, which is
    [nil] there. *)
Theorem GetUint16_wrong_length_no_error bo :
  GetUint16 bo {[ 5 := Some [x01] ]} 5 = Ok (0, None) /\
  GetUint16 bo ∅ 5 = Ok (0, Some (MissingAttribute 5)).
Proof. split; vm_compute; reflexivity. Qed.

(** In general: whatever the length of a stored non-[nil] value, [GetUint16]
    reports no error. *)
Lemma GetUint16_present_no_error bo (attrs : Attrs) typ v :
  attrs !! typ = Some (Some v) ->
  exists x, GetUint16 bo attrs typ = Ok (x, None).
Proof.
  intros H. unfold GetUint16, Get. rewrite H. simpl.
  destruct (len v =? 2) eqn:Hl; simpl; [|eauto].
  apply Z.eqb_eq in Hl. unfold len in Hl.
  destruct v as [|b0 [|b1 [|b2 v]]]; simpl in Hl; try lia.
  unfold elem_addr, load, bind. simpl. eauto.
Qed.


(** ** The response validator *)

Lemma nlMsghdrAt_0 data : NLMSG_HDRLEN <= len data -> nlMsghdrAt data 0 = Ok 0.
Proof.
  unfold nlMsghdrAt, elem_addr, NLMSG_HDRLEN. intros H.
  destruct (Z.ltb_spec 0 (len data)); [reflexivity | lia].
Qed.

(** The validator up to the classification of the message: what is left of
    [checkResponse] once the four checks on the header have passed. *)
Lemma checkResponse_checks_passed bo s data expectedSeq hLen :
  NLMSG_HDRLEN <= len data ->
  hdr bo data NlMsghdr.Len = Ok hLen -> hLen <= len data ->
  hdr bo data NlMsghdr.Pid = Ok (addr_Pid s) ->
  hdr bo data NlMsghdr.Seq = Ok expectedSeq ->
  checkResponse bo s data expectedSeq =
    (let* payload := reslice data NLMSG_HDRLEN hLen in
     let* h_Type := hdr bo data NlMsghdr.Type_ in
     if h_Type =? NLMSG_ERROR then
       let* nlerr := nlMsgerrAt payload 0 in
       let* raw := get_field bo (mem payload) nlerr NlMsgerr.Error in
       if wrap_int32 raw =? 0 then Ok None
       else Ok (Some (NetlinkError (Errno_of_neg (wrap_int32 raw))))
     else if hLen >? align (len data) NLMSG_ALIGNTO then Ok (Some MultipleMessages)
     else Ok None).
Proof.
  intros Hlen HLen Hle HPid HSeq. unfold checkResponse, hdr in *.
  destruct (Z.ltb_spec (len data) NLMSG_HDRLEN); [lia|].
  rewrite nlMsghdrAt_0 by assumption. cbn [bind].
  rewrite HLen. cbn [bind].
  destruct (Z.ltb_spec (len data) hLen); [lia|].
  rewrite HPid. cbn [bind]. rewrite Z.eqb_refl. cbn [negb].
  rewrite HSeq. cbn [bind]. rewrite Z.eqb_refl. cbn [negb].
  reflexivity.
Qed.

(** C7: the checks of [checkResponse] are made in order and the first one
    that fails decides the error: a buffer shorter than a header is a
    truncated header; a declared length above the buffer length is a
    truncated message, whatever the port id and the sequence number; a port
    id other than the socket's is a peer mismatch; and with the right port
    id a sequence number other than the expected one is a sequence
    mismatch. *)
Theorem checkResponse_check_order bo s data expectedSeq :
  (len data < NLMSG_HDRLEN ->
   checkResponse bo s data expectedSeq = Ok (Some (TruncatedHeader (len data)))) /\
  (forall hLen,
   NLMSG_HDRLEN <= len data ->
   hdr bo data NlMsghdr.Len = Ok hLen -> len data < hLen ->
   checkResponse bo s data expectedSeq = Ok (Some (TruncatedMessage (len data) hLen))) /\
  (forall hLen pid,
   NLMSG_HDRLEN <= len data ->
   hdr bo data NlMsghdr.Len = Ok hLen -> hLen <= len data ->
   hdr bo data NlMsghdr.Pid = Ok pid -> pid <> addr_Pid s ->
   checkResponse bo s data expectedSeq = Ok (Some (PidMismatch pid (addr_Pid s)))) /\
  (forall hLen seq,
   NLMSG_HDRLEN <= len data ->
   hdr bo data NlMsghdr.Len = Ok hLen -> hLen <= len data ->
   hdr bo data NlMsghdr.Pid = Ok (addr_Pid s) ->
   hdr bo data NlMsghdr.Seq = Ok seq -> seq <> expectedSeq ->
   checkResponse bo s data expectedSeq = Ok (Some (SeqMismatch seq expectedSeq))).
Proof.
  unfold checkResponse, hdr. repeat split.
  - intros Hlen. destruct (Z.ltb_spec (len data) NLMSG_HDRLEN); [reflexivity | lia].
  - intros hLen Hlen HLen Hgt.
    destruct (Z.ltb_spec (len data) NLMSG_HDRLEN); [lia|].
    rewrite nlMsghdrAt_0 by assumption. cbn [bind]. rewrite HLen. cbn [bind].
    destruct (Z.ltb_spec (len data) hLen); [reflexivity | lia].
  - intros hLen pid Hlen HLen Hle HPid Hne.
    destruct (Z.ltb_spec (len data) NLMSG_HDRLEN); [lia|].
    rewrite nlMsghdrAt_0 by assumption. cbn [bind]. rewrite HLen. cbn [bind].
    destruct (Z.ltb_spec (len data) hLen); [lia|].
    rewrite HPid. cbn [bind].
    destruct (Z.eqb_spec pid (addr_Pid s)); [contradiction | reflexivity].
  - intros hLen seq Hlen HLen Hle HPid HSeq Hne.
    destruct (Z.ltb_spec (len data) NLMSG_HDRLEN); [lia|].
    rewrite nlMsghdrAt_0 by assumption. cbn [bind]. rewrite HLen. cbn [bind].
    destruct (Z.ltb_spec (len data) hLen); [lia|].
    rewrite HPid. cbn [bind]. rewrite Z.eqb_refl. cbn [negb].
    rewrite HSeq. cbn [bind].
    destruct (Z.eqb_spec seq expectedSeq); [contradiction | reflexivity].
Qed.

(** The four failures on concrete little-endian buffers; in the last one the
    expected sequence number is [8] and the reply carries [7]. *)
Lemma checkResponse_check_order_witness :
  let s := {| fd := 3; addr_Pid := 99 |} in
  checkResponse LittleEndian s [x10; x00; x00] 8 = Ok (Some (TruncatedHeader 3)) /\
  checkResponse LittleEndian s (mk_hdr LittleEndian 20 16 0 8 99) 8
    = Ok (Some (TruncatedMessage 16 20)) /\
  checkResponse LittleEndian s (mk_hdr LittleEndian 16 16 0 8 98) 8
    = Ok (Some (PidMismatch 98 99)) /\
  checkResponse LittleEndian s (mk_hdr LittleEndian 16 16 0 7 99) 8
    = Ok (Some (SeqMismatch 7 8)).
Proof.
  intros s. split; [|split; [|split]].
  - apply (checkResponse_check_order LittleEndian s [x10; x00; x00] 8).
    vm_compute. reflexivity.
  - destruct (checkResponse_check_order LittleEndian s
                (mk_hdr LittleEndian 20 16 0 8 99) 8) as (_ & H & _).
    apply (H 20); vm_compute; congruence.
  - destruct (checkResponse_check_order LittleEndian s
                (mk_hdr LittleEndian 16 16 0 8 98) 8) as (_ & _ & H & _).
    apply (H 16 98); vm_compute; congruence.
  - destruct (checkResponse_check_order LittleEndian s
                (mk_hdr LittleEndian 16 16 0 7 99) 8) as (_ & _ & _ & H).
    apply (H 16 7); vm_compute; congruence.
Defined.

(** C6: a buffer that passes the length, peer and sequence checks, whose
    type is [NLMSG_ERROR] and whose payload holds the error code: with the
    code [0] the result is success, and with any other code it is the
    [NetlinkError] whose [Errno] is the negated code (negated as an [int32],
    converted to [uintptr]); for the codes the kernel sends, which are
    negative, that is the number [- code]. *)
Theorem checkResponse_error_code bo s data expectedSeq hLen raw :
  NLMSG_HDRLEN <= len data ->
  hdr bo data NlMsghdr.Len = Ok hLen -> hLen <= len data ->
  hdr bo data NlMsghdr.Pid = Ok (addr_Pid s) ->
  hdr bo data NlMsghdr.Seq = Ok expectedSeq ->
  hdr bo data NlMsghdr.Type_ = Ok NLMSG_ERROR ->
  NLMSG_HDRLEN < hLen ->
  get_field bo data NLMSG_HDRLEN NlMsgerr.Error = Ok raw ->
  (wrap_int32 raw = 0 -> checkResponse bo s data expectedSeq = Ok None) /\
  (wrap_int32 raw <> 0 ->
   checkResponse bo s data expectedSeq
     = Ok (Some (NetlinkError (Errno_of_neg (wrap_int32 raw)))) /\
   (wrap_int32 raw < 0 -> wrap_int32 raw <> - 2 ^ 31 ->
    Errno_of_neg (wrap_int32 raw) = - wrap_int32 raw)).
Proof.
  intros Hlen HLen Hle HPid HSeq HType Hpay Hraw.
  rewrite (checkResponse_checks_passed bo s data expectedSeq hLen) by assumption.
  unfold reslice.
  destruct (Z.leb_spec 0 NLMSG_HDRLEN); [|unfold NLMSG_HDRLEN in *; lia].
  destruct (Z.leb_spec NLMSG_HDRLEN hLen); [|lia].
  destruct (Z.leb_spec hLen (len data)); [|lia].
  cbn [andb bind]. rewrite HType. cbn [bind]. rewrite Z.eqb_refl.
  unfold nlMsgerrAt. cbn [sublen base mem].
  destruct (Z.ltb_spec 0 (hLen - NLMSG_HDRLEN)); [|lia].
  change (0 <=? 0) with true. cbn [andb bind].
  rewrite Z.add_0_r. rewrite Hraw. cbn [bind].
  split.
  - intros ->. reflexivity.
  - intros Hne. destruct (Z.eqb_spec (wrap_int32 raw) 0); [contradiction|].
    split; [reflexivity|].
    intros Hneg Hmin. unfold Errno_of_neg, wrap_uintptr.
    assert (Hr : - 2 ^ 31 <= wrap_int32 raw < 2 ^ 31).
    { unfold wrap_int32.
      pose proof (Z.mod_pos_bound (raw + 2 ^ 31) (2 ^ 32) ltac:(lia)). lia. }
    assert (Hid : wrap_int32 (- wrap_int32 raw) = - wrap_int32 raw).
    { generalize dependent (wrap_int32 raw). intros c _ _ Hneg Hmin Hr.
      unfold wrap_int32. rewrite Z.mod_small; lia. }
    rewrite Hid. apply Z.mod_small. lia.
Qed.

(** An acknowledgement, and the error code [-2] decoded as errno [2]. *)
Lemma checkResponse_error_code_witness :
  let s := {| fd := 3; addr_Pid := 99 |} in
  checkResponse LittleEndian s
    (mk_hdr LittleEndian 20 NLMSG_ERROR 0 8 99 ++ encode LittleEndian 4 0) 8 = Ok None /\
  checkResponse LittleEndian s
    (mk_hdr LittleEndian 20 NLMSG_ERROR 0 8 99 ++ encode LittleEndian 4 (2 ^ 32 - 2)) 8
    = Ok (Some (NetlinkError 2)).
Proof.
  intros s. split.
  - apply (checkResponse_error_code LittleEndian s
             (mk_hdr LittleEndian 20 NLMSG_ERROR 0 8 99 ++ encode LittleEndian 4 0)
             8 20 0); vm_compute; congruence.
  - change (NetlinkError 2)
      with (NetlinkError (Errno_of_neg (wrap_int32 (2 ^ 32 - 2)))).
    apply (checkResponse_error_code LittleEndian s
             (mk_hdr LittleEndian 20 NLMSG_ERROR 0 8 99
              ++ encode LittleEndian 4 (2 ^ 32 - 2))
             8 20 (2 ^ 32 - 2)); vm_compute; congruence.
Defined.

(** A declared length that passed the truncation check is never above the
    aligned buffer length, so the last test of [checkResponse] never fires. *)
Lemma checkResponse_never_MultipleMessages bo s data expectedSeq :
  allocatable data ->
  checkResponse bo s data expectedSeq <> Ok (Some MultipleMessages).
Proof.
  unfold allocatable, maxAlloc. intros Halloc. unfold checkResponse.
  destruct (Z.ltb_spec (len data) NLMSG_HDRLEN) as [|Hlen]; [discriminate|].
  rewrite nlMsghdrAt_0 by assumption. cbn [bind].
  unfold get_field, NlMsghdr.Len, NlMsghdr.Pid, NlMsghdr.Seq, NlMsghdr.Type_.
  cbn [fst snd]. unfold NLMSG_HDRLEN in Hlen.
  rewrite !load_in_bounds by (simpl; lia). cbn [bind].
  set (hLen := decode bo (firstn 4 (skipn (Z.to_nat (0 + 0)) data))).
  destruct (Z.ltb_spec (len data) hLen) as [|Hle]; [discriminate|].
  destruct (negb _); [discriminate|].
  destruct (negb _); [discriminate|].
  destruct (reslice data NLMSG_HDRLEN hLen) as [payload| |]; cbn [bind]; try discriminate.
  destruct (_ =? NLMSG_ERROR).
  - destruct (nlMsgerrAt payload 0) as [nlerr| |]; cbn [bind]; try discriminate.
    destruct (load bo (mem payload) _ _) as [raw| |]; cbn [bind]; try discriminate.
    destruct (_ =? 0); discriminate.
  - pose proof (align_4_bounds (len data)) as Ha.
    unfold NLMSG_ALIGNTO, max_int in *.
    assert (0 <= len data) by (unfold len; lia).
    destruct (Z.gtb_spec hLen (align (len data) 4)); [lia | discriminate].
Qed.

(** C1: a datagram of two complete messages of [16] bytes each, the first
    one addressed to the socket and carrying the expected sequence number.
    The declared length [16], rounded up to the alignment, is below the
    buffer length [32], and [checkResponse] returns success: its test
    compares the declared length with the aligned buffer length and not the
    aligned declared length with the buffer length. *)
Theorem checkResponse_trailing_message_accepted bo :
  let s := {| fd := 3; addr_Pid := 99 |} in
  let data := mk_hdr bo 16 16 0 8 99 ++ mk_hdr bo 16 16 0 9 99 in
  (hdr bo data NlMsghdr.Len = Ok 16 /\
   hdr bo data NlMsghdr.Type_ = Ok 16 /\
   hdr bo data NlMsghdr.Seq = Ok 8 /\
   hdr bo data NlMsghdr.Pid = Ok 99) /\
  4 * ((16 + 3) / 4) < len data /\
  checkResponse bo s data 8 = Ok None.
Proof.
  destruct bo; vm_compute; repeat split; reflexivity.
Qed.


(** ** The message parser *)

(** C4: a buffer of two headers, the first of type [16] and the second of
    type [17], and a parser whose cursor is at the second one. [TakeNlMsghdr]
    reads the header at offset [0] whatever the cursor: asked for the type
    of the header at the cursor it fails, and asked for the type of the
    first header it succeeds; in both cases the cursor moves on by the size
    of a header. *)
Theorem TakeNlMsghdr_reads_offset_0 bo :
  let d := mk_hdr bo 16 16 0 8 99 ++ mk_hdr bo 16 17 0 9 99 in
  let nlmsg := {| data := d; pos := 16 |} in
  get_field bo d (pos nlmsg) NlMsghdr.Type_ = Ok 17 /\
  Butcher.TakeNlMsghdr bo nlmsg 17
    = Ok ({| data := d; pos := 32 |}, None, Some (WrongType 16 17)) /\
  Butcher.TakeNlMsghdr bo nlmsg 16
    = Ok ({| data := d; pos := 32 |}, Some 0, None).
Proof.
  destruct bo; vm_compute; repeat split; reflexivity.
Qed.

(** What [TakeNlMsghdr] does on a buffer that holds a header: the cursor
    moves on by [NLMSG_HDRLEN] from wherever it is, and the type that is
    compared is the one of the header at offset [0]. *)
Lemma TakeNlMsghdr_header_at_0 bo nlmsg expectType typ :
  NLMSG_HDRLEN <= len (data nlmsg) ->
  hdr bo (data nlmsg) NlMsghdr.Type_ = Ok typ ->
  Butcher.TakeNlMsghdr bo nlmsg expectType =
    let nlmsg' := set_pos nlmsg (int_add (pos nlmsg) NLMSG_HDRLEN) in
    if typ =? expectType then Ok (nlmsg', Some 0, None)
    else Ok (nlmsg', None, Some (WrongType typ expectType)).
Proof.
  intros Hlen Htyp. unfold Butcher.TakeNlMsghdr, hdr in *.
  rewrite nlMsghdrAt_0 by assumption. cbn [bind set_pos data].
  rewrite Htyp. cbn [bind]. destruct (typ =? expectType); reflexivity.
Qed.

Ltac int_range := unfold is_int, min_int, max_int, allocatable, maxAlloc in *; lia.

Lemma len_nonneg {A : Type} (l : list A) : 0 <= len l.
Proof. unfold len. lia. Qed.

(** One iteration of the loop of [TakeAttrs], with the arithmetic of the
    cursor carried out: [a] is the aligned cursor and [l] the declared
    length of the record there. *)
Lemma TakeAttrs_loop_unfold bo f d p (m : Attrs) :
  allocatable d -> 0 <= p -> p + 3 <= max_int ->
  Butcher.TakeAttrs_loop bo (S f) {| data := d; pos := p |} m =
    let a := 4 * ((p + 3) / 4) in
    if len d <=? a then Ok ({| data := d; pos := p |}, m, None) else
    if negb (a + 4 <=? len d)
    then Ok ({| data := d; pos := a |}, m,
             Some (Truncated "netlink attribute" (len d - a) 4)) else
    let l := decode bo (firstn 2 (skipn (Z.to_nat a) d)) in
    if negb (a + l <=? len d)
    then Ok ({| data := d; pos := a |}, m,
             Some (Truncated "netlink attribute" (len d - a) l)) else
    if l <? 4 then Panic SliceBoundsOutOfRange else
    Butcher.TakeAttrs_loop bo f {| data := d; pos := a + l |}
      (<[decode bo (firstn 2 (skipn (Z.to_nat (a + 2)) d))
         := Some (firstn (Z.to_nat (l - 4)) (skipn (Z.to_nat (a + 4)) d))]> m).
Proof.
  intros Halloc Hp Hov.
  pose proof (align_4 p Hp Hov) as Ha.
  pose proof (align_4_bounds p Hp Hov) as [Hab Hamod]. rewrite Ha in Hab, Hamod.
  cbn [Butcher.TakeAttrs_loop]. unfold RTA_ALIGNTO, SizeofRtAttr, Butcher.checkData.
  cbn [pos data set_pos]. rewrite Ha.
  set (a := 4 * ((p + 3) / 4)) in *. cbv zeta.
  destruct (Z.leb_spec (len d) a) as [|Hlt]; [reflexivity|].
  assert (Hd : len d <= 2 ^ 48) by int_range.
  assert (Hw4 : int_add a (wrap_int 4) = a + 4).
  { unfold int_add. rewrite wrap_int_add_r. apply wrap_int_id. int_range. }
  rewrite Hw4.
  assert (Hsub : int_sub (len d) a = len d - a).
  { unfold int_sub. apply wrap_int_id. int_range. }
  rewrite Hsub.
  destruct (Z.leb_spec (a + 4) (len d)) as [Hfit|]; [|reflexivity]. cbn [negb].
  unfold rtAttrAt, elem_addr.
  destruct (Z.leb_spec 0 a); [|lia].
  destruct (Z.ltb_spec a (len d)); [|lia]. cbn [andb bind].
  unfold get_field, RtAttr.Len, RtAttr.Type_. cbn [fst snd].
  rewrite Z.add_0_r.
  rewrite (load_in_bounds bo d a 2) by (simpl; lia). cbn [bind].
  set (l := decode bo (firstn 2 (skipn (Z.to_nat a) d))).
  assert (Hl : 0 <= l < 2 ^ 16).
  { pose proof (decode_range bo (firstn 2 (skipn (Z.to_nat a) d))) as Hr.
    unfold len in Hr at 1. rewrite len_firstn_skipn in Hr by (simpl; lia).
    exact Hr. }
  assert (Hwl : int_add a (wrap_int l) = a + l).
  { unfold int_add. rewrite wrap_int_add_r. apply wrap_int_id. int_range. }
  rewrite Hwl.
  destruct (Z.leb_spec (a + l) (len d)) as [Hfitl|]; [|reflexivity]. cbn [negb].
  rewrite (load_in_bounds bo d (a + 2) 2) by (simpl; lia). cbn [bind].
  assert (Hv : align (int_add a 4) 4 = a + 4).
  { unfold int_add. rewrite (wrap_int_id (a + 4)) by int_range.
    apply align_4_aligned; [lia | int_range |].
    rewrite <- Zplus_mod_idemp_l. unfold a at 1.
    rewrite (Z.mul_comm 4), Z_mod_mult. reflexivity. }
  rewrite Hv.
  assert (Hal : int_add a l = a + l).
  { unfold int_add. apply wrap_int_id. int_range. }
  rewrite Hal. unfold slice.
  destruct (Z.leb_spec 0 (a + 4)); [|lia].
  destruct (Z.leb_spec (a + l) (len d)); [|lia].
  destruct (Z.ltb_spec l 4) as [Hshort|Hlong].
  - destruct (Z.leb_spec (a + 4) (a + l)); [lia | reflexivity].
  - destruct (Z.leb_spec (a + 4) (a + l)); [|lia]. cbn [andb bind].
    replace (a + l - (a + 4)) with (l - 4) by lia. reflexivity.
Qed.

(** The loop is never short of fuel, never indexes outside the buffer and
    never reads outside it through a pointer: it returns, with or without
    the truncated-attribute error, or the slice expression of a record whose
    declared length is below the prefix size panics. *)
Lemma TakeAttrs_loop_fuel bo d f : forall p (m : Attrs),
  allocatable d -> 0 <= p -> p + 3 <= max_int ->
  len d - p <= 4 * Z.of_nat f ->
  TakeAttrs_outcome (Butcher.TakeAttrs_loop bo (S f) {| data := d; pos := p |} m).
Proof.
  induction f as [|f IH]; intros p m Halloc Hp Hov Hfuel;
    rewrite TakeAttrs_loop_unfold by assumption; cbv zeta;
    pose proof (align_4_bounds p Hp Hov) as [Hab _];
    rewrite align_4 in Hab by assumption;
    set (a := 4 * ((p + 3) / 4)) in *.
  - destruct (Z.leb_spec (len d) a); [exact I | lia].
  - destruct (Z.leb_spec (len d) a); [exact I|].
    destruct (negb _); [exact I|].
    set (l := decode bo _).
    destruct (Z.leb_spec (a + l) (len d)); cbn [negb]; [|exact I].
    destruct (Z.ltb_spec l 4); [exact I|].
    apply IH; [assumption | lia | int_range | lia].
Qed.

Lemma TakeAttrs_total bo nlmsg :
  allocatable (data nlmsg) -> 0 <= pos nlmsg -> pos nlmsg + 3 <= max_int ->
  TakeAttrs_outcome (Butcher.TakeAttrs bo nlmsg).
Proof.
  intros Halloc Hp Hov. unfold Butcher.TakeAttrs. destruct nlmsg as [d p].
  cbn [data pos] in *. apply TakeAttrs_loop_fuel; try assumption.
  unfold len. lia.
Qed.

(** C3: a buffer of one attribute prefix whose declared length is [0], and
    one whose declared length is [3]: both pass the two calls of
    [checkData], and the slice expression for the value, which starts after
    the prefix and ends at the declared length, panics. *)
Theorem TakeAttrs_short_length_panics bo :
  Butcher.TakeAttrs bo {| data := [x00; x00; x00; x00]; pos := 0 |}
    = Panic SliceBoundsOutOfRange /\
  Butcher.TakeAttrs bo {| data := encode bo 2 3 ++ encode bo 2 1; pos := 0 |}
    = Panic SliceBoundsOutOfRange.
Proof.
  destruct bo; split; vm_compute; reflexivity.
Qed.

(** *** Well-formed attribute streams *)

Lemma tlv_at_inv bo d a t v :
  0 <= a -> tlv_at bo d a t v ->
  a + 4 + len v <= len d /\
  decode bo (firstn 2 (skipn (Z.to_nat a) d)) = 4 + len v /\
  decode bo (firstn 2 (skipn (Z.to_nat (a + 2)) d)) = t /\
  firstn (Z.to_nat (len v)) (skipn (Z.to_nat (a + 4)) d) = v.
Proof.
  intros Ha (HLen & HType & Hval).
  unfold get_field, RtAttr.Len, RtAttr.Type_, SizeofRtAttr in *. cbn [fst snd] in *.
  rewrite Z.add_0_r in HLen.
  destruct (load_Ok_inv _ _ _ _ _ HType) as (_ & Hb & _).
  rewrite load_in_bounds in HLen by (simpl in *; lia).
  rewrite load_in_bounds in HType by (simpl in *; lia).
  injection HLen as HLen. injection HType as HType.
  unfold slice in Hval.
  destruct (Z.leb_spec 0 (a + 4)); [|lia].
  destruct (Z.leb_spec (a + 4) (a + 4 + len v)); [|pose proof (len_nonneg v); lia].
  destruct (Z.leb_spec (a + 4 + len v) (len d)); [|discriminate].
  cbn [andb] in Hval. injection Hval as Hval.
  replace (a + 4 + len v - (a + 4)) with (len v) in Hval by lia.
  auto.
Qed.

(** On a well-formed record the loop stores its value under its type and
    goes on after it. *)
Lemma TakeAttrs_loop_record bo f d p (m : Attrs) t v :
  allocatable d -> 0 <= p -> p + 3 <= max_int ->
  tlv_at bo d (4 * ((p + 3) / 4)) t v ->
  Butcher.TakeAttrs_loop bo (S f) {| data := d; pos := p |} m =
  Butcher.TakeAttrs_loop bo f {| data := d; pos := 4 * ((p + 3) / 4) + 4 + len v |}
    (<[t := Some v]> m).
Proof.
  intros Halloc Hp Hov Htlv.
  rewrite TakeAttrs_loop_unfold by assumption. cbv zeta.
  pose proof (align_4_bounds p Hp Hov) as [Hab _]. rewrite align_4 in Hab by assumption.
  set (a := 4 * ((p + 3) / 4)) in *.
  destruct (tlv_at_inv bo d a t v ltac:(lia) Htlv) as (Hfit & HLen & HType & Hval).
  pose proof (len_nonneg v) as Hv.
  rewrite HLen, HType.
  destruct (Z.leb_spec (len d) a); [lia|].
  destruct (Z.leb_spec (a + 4) (len d)); [|lia]. cbn [negb].
  destruct (Z.leb_spec (a + (4 + len v)) (len d)); [|lia]. cbn [negb].
  destruct (Z.ltb_spec (4 + len v) 4); [lia|].
  replace (4 + len v - 4) with (len v) by lia. rewrite Hval.
  replace (a + (4 + len v)) with (a + 4 + len v) by lia. reflexivity.
Qed.

Lemma tlv_stream_length bo d rs : forall p,
  0 <= p -> tlv_stream bo d p rs -> rs <> [] -> p + 4 * len rs <= len d.
Proof.
  induction rs as [|[t v] rs IH]; intros p Hp Hs Hne; [congruence|].
  cbn [tlv_stream] in Hs. destruct Hs as [Htlv Hrest].
  pose proof (Z.div_mod (p + 3) 4 ltac:(lia)) as Hdm.
  pose proof (Z.mod_pos_bound (p + 3) 4 ltac:(lia)) as Hmb.
  set (a := 4 * ((p + 3) / 4)) in *.
  destruct (tlv_at_inv bo d a t v ltac:(lia) Htlv) as (Hfit & _).
  pose proof (len_nonneg v) as Hv.
  unfold len in *. cbn [length]. rewrite Nat2Z.inj_succ.
  destruct rs as [|r rs]; [simpl; lia|].
  unfold SizeofRtAttr in Hrest.
  specialize (IH (a + 4 + Z.of_nat (length v)) ltac:(lia) Hrest ltac:(discriminate)).
  lia.
Qed.

(** On a well-formed stream the loop returns the map of its records, later
    records overwriting earlier ones of the same type. *)
Lemma TakeAttrs_loop_stream bo d rs : forall f p (m : Attrs),
  allocatable d -> 0 <= p -> p + 3 <= max_int ->
  tlv_stream bo d p rs -> (length rs <= f)%nat ->
  exists st, Butcher.TakeAttrs_loop bo (S f) {| data := d; pos := p |} m
             = Ok (st, attrs_of rs m, None).
Proof.
  induction rs as [|[t v] rs IH]; intros f p m Halloc Hp Hov Hs Hf.
  - cbn [tlv_stream] in Hs. rewrite TakeAttrs_loop_unfold by assumption. cbv zeta.
    destruct (Z.leb_spec (len d) (4 * ((p + 3) / 4))); [|lia].
    eexists. reflexivity.
  - cbn [tlv_stream] in Hs. destruct Hs as [Htlv Hrest].
    destruct f as [|f]; [simpl in Hf; lia|].
    rewrite (TakeAttrs_loop_record bo (S f) d p m t v) by assumption.
    pose proof (align_4_bounds p Hp Hov) as [Hab _]. rewrite align_4 in Hab by assumption.
    destruct (tlv_at_inv bo d (4 * ((p + 3) / 4)) t v ltac:(lia) Htlv) as (Hfit & _).
    pose proof (len_nonneg v) as Hv.
    unfold SizeofRtAttr in Hrest.
    apply (IH f _ (<[t := Some v]> m)); try assumption; try lia; try int_range.
    simpl in Hf. lia.
Qed.

Lemma attrs_of_app rs1 rs2 (m : Attrs) :
  attrs_of (rs1 ++ rs2) m = attrs_of rs2 (attrs_of rs1 m).
Proof. unfold attrs_of. apply fold_left_app. Qed.

Lemma attrs_of_lookup_other rs t : forall (m : Attrs),
  Forall (fun r => fst r <> t) rs -> attrs_of rs m !! t = m !! t.
Proof.
  induction rs as [|r rs IH]; intros m Hall; [reflexivity|].
  inversion Hall as [|? ? Hr Hrs]; subst.
  change (attrs_of (r :: rs) m) with (attrs_of rs (<[fst r := Some (snd r)]> m)).
  rewrite IH by assumption. apply lookup_insert_ne. assumption.
Qed.

(** [TakeAttrs] on a well-formed stream: [S (length d)] iterations are
    enough, each record taking at least the four bytes of its prefix. *)
Lemma TakeAttrs_stream bo d p rs :
  allocatable d -> 0 <= p -> p + 3 <= max_int ->
  tlv_stream bo d p rs ->
  exists st, Butcher.TakeAttrs bo {| data := d; pos := p |} = Ok (st, attrs_of rs ∅, None).
Proof.
  intros Halloc Hp Hov Hs. unfold Butcher.TakeAttrs. cbn [data].
  apply TakeAttrs_loop_stream; try assumption.
  destruct rs as [|r rs]; [simpl; lia|].
  pose proof (tlv_stream_length bo d (r :: rs) p Hp Hs ltac:(discriminate)) as Hlen.
  unfold len in Hlen. lia.
Qed.

(** C9: in a buffer that is a stream of well-formed records of which two
    have the type [t], with no record of type [t] after the second of the
    two, [TakeAttrs] returns without an error a map that binds [t] to the
    value of that later record. *)
Theorem TakeAttrs_last_write_wins bo d p rs1 rs2 rs3 t v1 v2 :
  allocatable d -> 0 <= p ->
  tlv_stream bo d p (rs1 ++ (t, v1) :: rs2 ++ (t, v2) :: rs3) ->
  Forall (fun r => fst r <> t) rs3 ->
  exists st (m : Attrs),
    Butcher.TakeAttrs bo {| data := d; pos := p |} = Ok (st, m, None) /\
    m !! t = Some (Some v2).
Proof.
  intros Halloc Hp Hs Hrs3.
  set (rs := rs1 ++ (t, v1) :: rs2 ++ (t, v2) :: rs3) in *.
  assert (Hne : rs <> []) by (unfold rs; destruct rs1; discriminate).
  pose proof (tlv_stream_length bo d rs p Hp Hs Hne) as Hlen.
  assert (Hrs : 1 <= len rs) by (unfold len; destruct rs; [congruence | simpl; lia]).
  assert (Hov : p + 3 <= max_int) by int_range.
  destruct (TakeAttrs_stream bo d p rs Halloc Hp Hov Hs) as [st Hst].
  exists st, (attrs_of rs ∅). split; [exact Hst|].
  unfold rs.
  replace (rs1 ++ (t, v1) :: rs2 ++ (t, v2) :: rs3)
    with ((rs1 ++ (t, v1) :: rs2) ++ [(t, v2)] ++ rs3)
    by (rewrite <- !app_assoc; reflexivity).
  rewrite !attrs_of_app. rewrite attrs_of_lookup_other by assumption.
  apply lookup_insert_eq.
Qed.

(** Two records of type [1] followed by one of type [2], little-endian:
    type [1] is bound to the value of the second record. *)
Lemma TakeAttrs_last_write_wins_witness :
  let d := [x05; x00; x01; x00; xaa; x00; x00; x00;
            x06; x00; x01; x00; xbb; xcc; x00; x00;
            x05; x00; x02; x00; xdd] in
  exists st (m : Attrs),
    Butcher.TakeAttrs LittleEndian {| data := d; pos := 0 |} = Ok (st, m, None) /\
    m !! 1 = Some (Some [xbb; xcc]).
Proof.
  intros d.
  apply (TakeAttrs_last_write_wins LittleEndian d 0 [] [] [(2, [xdd])] 1 [xaa] [xbb; xcc]).
  - unfold allocatable, maxAlloc. vm_compute. discriminate.
  - lia.
  - vm_compute. repeat split; try reflexivity; discriminate.
  - repeat constructor. simpl. lia.
Defined.


(** ** The message builder *)

Lemma encode_shape2 bo v : exists b0 b1, encode bo 2 v = [b0; b1].
Proof. destruct bo; simpl; eauto. Qed.

Lemma encode_shape4 bo v : exists b0 b1 b2 b3, encode bo 4 v = [b0; b1; b2; b3].
Proof. destruct bo; simpl; eauto 6. Qed.

(** The builder stage by stage. A new builder holds a zeroed header with
    the type and the flags filled in. *)
Lemma NewNlMsgBuilder_bytes bo F T :
  Builder.NewNlMsgBuilder bo F T =
  Ok {| arr := repeat x00 4 ++ encode bo 2 T ++ encode bo 2 F ++ repeat x00 8;
        blen := 16 |}.
Proof.
  unfold Builder.NewNlMsgBuilder, buf_set_field, set_field, store.
  unfold NlMsghdr.Flags, NlMsghdr.Type_.
  cbv beta zeta. cbn [fst snd].
  destruct (encode_shape2 bo F) as (f0 & f1 & HF).
  destruct (encode_shape2 bo T) as (t0 & t1 & HT).
  rewrite HF, HT.
  vm_compute; reflexivity.
Qed.

(** After a header of [16] bytes, the string attribute is its prefix, with
    the declared length [9], and the string with its terminator; the buffer
    was reallocated once, with the capacity [25]. *)
Lemma PutStringRtAttr_eth0_bytes bo A (h : list byte) :
  length h = 16%nat ->
  Builder.PutStringRtAttr bo {| arr := h; blen := 16 |} A eth0 =
  Ok {| arr := h ++ encode bo 2 9 ++ encode bo 2 A ++ eth0z; blen := 25 |}.
Proof.
  intros Hh.
  do 17 (destruct h as [|? h]; try discriminate Hh). clear Hh.
  unfold Builder.PutStringRtAttr, Builder.PutRtAttr, buf_set_field, set_field, store.
  unfold RtAttr.Type_, RtAttr.Len.
  cbv beta zeta. cbn [fst snd].
  destruct (encode_shape2 bo A) as (a0 & a1 & HA).
  rewrite HA.
  destruct bo; vm_compute; reflexivity.
Qed.

(** [Finish] writes the length and the next sequence number. *)
Lemma Finish_bytes bo (b : list byte) nextSeqNo :
  length b = 25%nat ->
  Builder.Finish bo {| arr := b; blen := 25 |} nextSeqNo =
  Ok (encode bo 4 25 ++ firstn 4 (skipn 4 b)
      ++ encode bo 4 (wrap_uint32 (nextSeqNo + 1)) ++ skipn 12 b,
      wrap_uint32 (nextSeqNo + 1), {| arr := []; blen := 0 |},
      wrap_uint32 (nextSeqNo + 1)).
Proof.
  intros Hb.
  do 26 (destruct b as [|? b]; try discriminate Hb). clear Hb.
  unfold Builder.Finish, buf_set_field, set_field, store.
  unfold NlMsghdr.Seq, NlMsghdr.Len.
  cbv beta zeta. cbn [fst snd].
  generalize (wrap_uint32 (nextSeqNo + 1)). intros seq.
  destruct (encode_shape4 bo seq) as (s0 & s1 & s2 & s3 & HS).
  rewrite HS.
  destruct bo; vm_compute; reflexivity.
Qed.

(** The bytes of a finished message with the one string attribute ["eth0"]:
    the header with the length [25], the prefix of the attribute with the
    length [9], and the string with its terminator. *)
Lemma build_string_message_bytes bo F T A nextSeqNo :
  build_string_message bo F T A eth0 nextSeqNo =
  Ok (mk_hdr bo 25 T F (wrap_uint32 (nextSeqNo + 1)) 0
      ++ encode bo 2 9 ++ encode bo 2 A ++ eth0z,
      wrap_uint32 (nextSeqNo + 1)).
Proof.
  unfold build_string_message.
  rewrite NewNlMsgBuilder_bytes. cbn [bind].
  rewrite PutStringRtAttr_eth0_bytes
    by (rewrite !length_app, !length_encode; reflexivity).
  cbn [bind].
  rewrite Finish_bytes
    by (rewrite !length_app, !length_encode; reflexivity).
  cbn [bind]. f_equal. f_equal. unfold mk_hdr.
  generalize (wrap_uint32 (nextSeqNo + 1)). intros seq.
  destruct (encode_shape2 bo F) as (f0 & f1 & HF).
  destruct (encode_shape2 bo T) as (t0 & t1 & HT).
  destruct (encode_shape2 bo A) as (a0 & a1 & HA).
  destruct (encode_shape4 bo seq) as (s0 & s1 & s2 & s3 & HS).
  rewrite HF, HT, HA, HS.
  destruct bo; reflexivity.
Qed.

(** C5: for all flags [F], type [T] and attribute type [A], the message
    built with [NewNlMsgBuilder], one [PutStringRtAttr] of ["eth0"] and
    [Finish] has a header whose length field is the length of the buffer,
    whose type is [T] and whose flags are [F]; and parsing the buffer with
    [TakeNlMsghdr] and [TakeAttrs] gives a map in which [A] is bound to the
    five bytes of ["eth0"] and its terminator. *)
Theorem builder_parser_roundtrip bo F T A nextSeqNo :
  is_uint16 F -> is_uint16 T -> is_uint16 A ->
  exists res seq,
    build_string_message bo F T A eth0 nextSeqNo = Ok (res, seq) /\
    hdr bo res NlMsghdr.Len = Ok (len res) /\
    hdr bo res NlMsghdr.Type_ = Ok T /\
    hdr bo res NlMsghdr.Flags = Ok F /\
    (exists m : Attrs,
       parse_message bo T res = Ok (Some 0, m, None) /\
       m !! A = Some (Some eth0z) /\ m = {[ A := Some eth0z ]}) /\
    len eth0z = 5.
Proof.
  unfold is_uint16. intros HF HT HA.
  eexists _, _. split; [apply build_string_message_bytes|].
  generalize (wrap_uint32 (nextSeqNo + 1)). intros seq.
  unfold mk_hdr.
  destruct (encode_shape2 bo F) as (f0 & f1 & HFb).
  destruct (encode_shape2 bo T) as (t0 & t1 & HTb).
  destruct (encode_shape2 bo A) as (a0 & a1 & HAb).
  destruct (encode_shape2 bo 9) as (l0 & l1 & HLb).
  destruct (encode_shape4 bo 25) as (n0 & n1 & n2 & n3 & HNb).
  destruct (encode_shape4 bo seq) as (s0 & s1 & s2 & s3 & HSb).
  destruct (encode_shape4 bo 0) as (p0 & p1 & p2 & p3 & HPb).
  rewrite HFb, HTb, HAb, HLb, HNb, HSb, HPb.
  change ([n0; n1; n2; n3] ++ [t0; t1] ++ [f0; f1] ++ [s0; s1; s2; s3]
          ++ [p0; p1; p2; p3]) with
    [n0; n1; n2; n3; t0; t1; f0; f1; s0; s1; s2; s3; p0; p1; p2; p3].
  change (_ ++ [l0; l1] ++ [a0; a1] ++ eth0z) with
    ([n0; n1; n2; n3; t0; t1; f0; f1; s0; s1; s2; s3; p0; p1; p2; p3;
      l0; l1; a0; a1; "e"; "t"; "h"; "0"; x00]%byte).
  set (res := [n0; n1; n2; n3; t0; t1; f0; f1; s0; s1; s2; s3; p0; p1; p2; p3;
               l0; l1; a0; a1; "e"; "t"; "h"; "0"; x00]%byte).
  assert (Hlen : len res = 25) by reflexivity.
  assert (HLen : hdr bo res NlMsghdr.Len = Ok (len res)).
  { rewrite Hlen. unfold hdr, get_field, NlMsghdr.Len. cbn [fst snd].
    apply load_encoded; [lia | rewrite Hlen; lia | | lia].
    rewrite HNb. reflexivity. }
  assert (HType : hdr bo res NlMsghdr.Type_ = Ok T).
  { unfold hdr, get_field, NlMsghdr.Type_. cbn [fst snd].
    apply load_encoded; [lia | rewrite Hlen; lia | | exact HT].
    rewrite HTb. reflexivity. }
  assert (HFlags : hdr bo res NlMsghdr.Flags = Ok F).
  { unfold hdr, get_field, NlMsghdr.Flags. cbn [fst snd].
    apply load_encoded; [lia | rewrite Hlen; lia | | exact HF].
    rewrite HFb. reflexivity. }
  repeat (split; [assumption|]). split; [|reflexivity].
  assert (Hstream : tlv_stream bo res 16 [(A, eth0z)]).
  { cbn [tlv_stream]. change (4 * ((16 + 3) / 4)) with 16.
    split; [|rewrite Hlen; vm_compute; discriminate].
    unfold tlv_at, get_field, RtAttr.Len, RtAttr.Type_. cbn [fst snd].
    change (SizeofRtAttr + len eth0z) with 9.
    split; [|split].
    - apply load_encoded; [lia | rewrite Hlen; lia | | vm_compute; split; congruence].
      rewrite HLb. reflexivity.
    - apply load_encoded; [lia | rewrite Hlen; lia | | exact HA].
      rewrite HAb. reflexivity.
    - reflexivity. }
  destruct (TakeAttrs_stream bo res 16 [(A, eth0z)]) as [st Hst];
    [unfold allocatable, maxAlloc; rewrite Hlen; lia | lia
     | unfold max_int; lia | exact Hstream |].
  exists {[ A := Some eth0z ]}. split; [|split; [apply lookup_singleton_eq | reflexivity]].
  unfold parse_message.
  rewrite (TakeNlMsghdr_header_at_0 bo (NewNlMsgButcher res) T T)
    by (try exact HType; cbn [NewNlMsgButcher data]; rewrite Hlen; unfold NLMSG_HDRLEN; lia).
  cbv zeta. rewrite Z.eqb_refl. cbn [bind].
  change (set_pos (NewNlMsgButcher res) (int_add (pos (NewNlMsgButcher res)) NLMSG_HDRLEN))
    with {| data := res; pos := 16 |}.
  rewrite Hst. cbn [bind]. unfold attrs_of. cbn [fold_left fst snd].
  rewrite insert_empty. reflexivity.
Qed.

Lemma builder_parser_roundtrip_witness :
  exists res seq,
    build_string_message LittleEndian 5 16 3 eth0 41 = Ok (res, seq) /\
    hdr LittleEndian res NlMsghdr.Len = Ok (len res) /\
    hdr LittleEndian res NlMsghdr.Type_ = Ok 16 /\
    hdr LittleEndian res NlMsghdr.Flags = Ok 5 /\
    (exists m : Attrs,
       parse_message LittleEndian 16 res = Ok (Some 0, m, None) /\
       m !! 3 = Some (Some eth0z) /\ m = {[ 3 := Some eth0z ]}) /\
    len eth0z = 5.
Proof.
  apply (builder_parser_roundtrip LittleEndian 5 16 3 41); unfold is_uint16; lia.
Defined.


(** ** Lists of bytes *)

Lemma len_app {A : Type} (l k : list A) : len (l ++ k) = len l + len k.
Proof. unfold len. rewrite length_app. lia. Qed.

Lemma len_repeat {A : Type} (x : A) n : len (repeat x n) = Z.of_nat n.
Proof. unfold len. now rewrite repeat_length. Qed.

Lemma len_encode bo n v : len (encode bo n v) = Z.of_nat n.
Proof. unfold len. now rewrite length_encode. Qed.

Lemma to_nat_len {A : Type} (l : list A) : Z.to_nat (len l) = length l.
Proof. unfold len. apply Nat2Z.id. Qed.

Lemma firstn_len_app {A : Type} (l k : list A) : firstn (Z.to_nat (len l)) (l ++ k) = l.
Proof. rewrite to_nat_len. apply take_app_length. Qed.

Lemma skipn_len_app {A : Type} (l k : list A) : skipn (Z.to_nat (len l)) (l ++ k) = k.
Proof. rewrite to_nat_len. apply drop_app_length. Qed.

Lemma repeat_split {A : Type} (x : A) (n m : Z) :
  0 <= n -> 0 <= m ->
  repeat x (Z.to_nat (n + m)) = repeat x (Z.to_nat n) ++ repeat x (Z.to_nat m).
Proof. intros Hn Hm. rewrite Z2Nat.inj_add by assumption. apply repeat_app. Qed.

(** Writing a field over [n] bytes that follow [pre]. *)
Lemma store_app bo (pre old post : list byte) n v :
  length old = n ->
  store bo (pre ++ old ++ post) (len pre) n v = Ok (pre ++ encode bo n v ++ post).
Proof.
  intros Hold. unfold store.
  pose proof (len_nonneg pre) as Hp.
  destruct (Z.leb_spec 0 (len pre)); [|lia].
  rewrite !len_app.
  assert (Ho : len old = Z.of_nat n) by (unfold len; lia).
  pose proof (len_nonneg post).
  destruct (Z.leb_spec (len pre + Z.of_nat n) (len pre + (len old + len post))); [|lia].
  cbn [andb]. rewrite firstn_len_app. f_equal. f_equal. f_equal.
  rewrite to_nat_len, <- Hold.
  rewrite app_assoc, <- length_app. apply drop_app_length.
Qed.

(** Reading a field from the bytes of its encoding. *)
Lemma load_app bo (pre post : list byte) n v :
  0 <= v < 256 ^ Z.of_nat n ->
  load bo (pre ++ encode bo n v ++ post) (len pre) n = Ok v.
Proof.
  intros Hv. pose proof (len_nonneg pre). pose proof (len_nonneg post).
  apply load_encoded; try assumption.
  - rewrite !len_app, len_encode. lia.
  - rewrite skipn_len_app.
    rewrite <- (length_encode bo n v) at 1. apply take_app_length.
Qed.

Lemma load_app_at bo (pre post : list byte) p n v :
  p = len pre -> 0 <= v < 256 ^ Z.of_nat n ->
  load bo (pre ++ encode bo n v ++ post) p n = Ok v.
Proof. intros ->. apply load_app. Qed.

Lemma slice_app (pre v post : list byte) lo hi :
  lo = len pre -> hi = len pre + len v ->
  slice (pre ++ v ++ post) lo hi = Ok v.
Proof.
  intros -> ->. unfold slice.
  pose proof (len_nonneg pre). pose proof (len_nonneg v). pose proof (len_nonneg post).
  rewrite !len_app.
  destruct (Z.leb_spec 0 (len pre)); [|lia].
  destruct (Z.leb_spec (len pre) (len pre + len v)); [|lia].
  destruct (Z.leb_spec (len pre + len v) (len pre + (len v + len post))); [|lia].
  cbn [andb]. rewrite skipn_len_app.
  replace (len pre + len v - len pre) with (len v) by lia.
  rewrite firstn_len_app. reflexivity.
Qed.


(** ** The builder on arbitrary buffers *)

Lemma buf_builder_of b c : buf (builder_of b c) = b.
Proof. unfold buf, builder_of. cbn [arr blen]. apply firstn_len_app. Qed.

Lemma cap_builder_of b c : len b <= c -> cap (builder_of b c) = c.
Proof.
  intros H. unfold cap, builder_of. cbn [arr].
  rewrite len_app, len_repeat. lia.
Qed.

Lemma blen_builder_of b c : blen (builder_of b c) = len b.
Proof. reflexivity. Qed.

(** One step of the growth of the capacity: at least half as much again. *)
Lemma grow_step c :
  0 <= c <= 2 ^ 60 ->
  3 * c + 2 <= 2 * int_quot (int_mul (int_add c 1) 3) 2 <= 3 * c + 3.
Proof.
  intros Hc. unfold int_quot, int_mul, int_add.
  rewrite (wrap_int_id (c + 1)) by int_range.
  rewrite (wrap_int_id ((c + 1) * 3)) by int_range.
  rewrite Z.quot_div_nonneg by lia.
  pose proof (Z.div_mod ((c + 1) * 3) 2 ltac:(lia)) as Hdm.
  pose proof (Z.mod_pos_bound ((c + 1) * 3) 2 ltac:(lia)) as Hmb.
  rewrite wrap_int_id by int_range. lia.
Qed.

(** The loop of [expand] ends within its fuel: two steps at least double
    the capacity. *)
Lemma expand_loop_spec l :
  l <= 2 ^ 47 ->
  forall k fuel c,
  (2 * k + 1 <= fuel)%nat -> 1 <= c <= 2 ^ 48 -> l <= c * 2 ^ Z.of_nat k ->
  exists c', Builder.expand_loop fuel l c = Ok c' /\ l <= c' /\ c <= c' <= 2 ^ 48.
Proof.
  intros Hl. induction k as [|k IH]; intros fuel c Hfuel Hc Hk.
  - destruct fuel as [|f]; [lia|]. cbn [Builder.expand_loop].
    rewrite Z.pow_0_r in Hk.
    destruct (Z.gtb_spec l c); [lia|]. exists c. split; [reflexivity | lia].
  - destruct fuel as [|[|f]]; try lia. cbn [Builder.expand_loop].
    destruct (Z.gtb_spec l c) as [Hgt|]; [|exists c; split; [reflexivity | lia]].
    pose proof (grow_step c ltac:(lia)) as H1.
    set (c1 := int_quot (int_mul (int_add c 1) 3) 2) in *.
    destruct (Z.gtb_spec l c1) as [Hgt1|]; [|exists c1; split; [reflexivity | lia]].
    pose proof (grow_step c1 ltac:(lia)) as H2.
    set (c2 := int_quot (int_mul (int_add c1 1) 3) 2) in *.
    destruct (IH f c2) as (c' & Hc' & Hlc' & Hcc'); try lia.
    + rewrite Nat2Z.inj_succ, Z.pow_succ_r in Hk by lia.
      assert (0 < 2 ^ Z.of_nat k) by (apply Z.pow_pos_nonneg; lia). nia.
    + exists c'. split; [exact Hc'|]. lia.
Qed.

(** [expand] keeps the bytes and the length of the buffer and returns a
    larger capacity that is at least the one asked for. *)
Lemma expand_builder_of b c l :
  len b <= c <= 2 ^ 47 -> l <= 2 ^ 47 ->
  exists c', Builder.expand (builder_of b c) l = Ok (builder_of b c') /\
             l <= c' /\ c < c' <= maxAlloc.
Proof.
  intros Hc Hl. unfold Builder.expand. pose proof (len_nonneg b) as Hb.
  rewrite cap_builder_of by lia.
  pose proof (grow_step c ltac:(lia)) as H0.
  set (c0 := int_quot (int_mul (int_add c 1) 3) 2) in *.
  destruct (expand_loop_spec l Hl 47 128 c0) as (c' & Hc' & Hlc' & Hcc');
    [lia | lia | |].
  { assert (2 ^ 47 <= c0 * 2 ^ Z.of_nat 47); [|lia].
    change (2 ^ Z.of_nat 47) with (2 ^ 47). lia. }
  rewrite Hc'. cbn [bind]. rewrite blen_builder_of, buf_builder_of.
  destruct (Z.leb_spec 0 (len b)); [|lia].
  destruct (Z.leb_spec (len b) c'); [|lia]. cbn [andb].
  exists c'. unfold maxAlloc. split; [reflexivity | lia].
Qed.

(** [buf[:l]] within the capacity brings zero bytes into the buffer. *)
Lemma buf_reslice_builder_of b c l :
  len b <= l <= c ->
  buf_reslice (builder_of b c) l
    = Ok (builder_of (b ++ repeat x00 (Z.to_nat (l - len b))) c).
Proof.
  intros Hl. unfold buf_reslice. pose proof (len_nonneg b) as Hb.
  rewrite cap_builder_of by lia.
  destruct (Z.leb_spec 0 l); [|lia]. destruct (Z.leb_spec l c); [|lia]. cbn [andb].
  f_equal. unfold builder_of. cbn [arr].
  rewrite len_app, len_repeat, Z2Nat.id by lia.
  f_equal; [|lia].
  rewrite <- app_assoc. f_equal.
  replace (c - len b) with ((l - len b) + (c - l)) by lia.
  rewrite repeat_split by lia. f_equal. f_equal. f_equal. lia.
Qed.

(** [Grow] appends [size] zero bytes and returns the offset at which they
    start; the bytes written before are kept. *)
Lemma Grow_builder_of b c size :
  len b <= c <= maxAlloc -> 0 <= size -> len b + size <= 2 ^ 47 ->
  exists c', Builder.Grow (builder_of b c) size
               = Ok (builder_of (b ++ repeat x00 (Z.to_nat size)) c', len b) /\
             c <= c' <= maxAlloc /\ len b + size <= c'.
Proof.
  intros Hc Hs Hl. unfold Builder.Grow. pose proof (len_nonneg b) as Hb.
  rewrite blen_builder_of, cap_builder_of by lia.
  assert (Hadd : int_add (len b) (wrap_int size) = len b + size).
  { unfold int_add. rewrite wrap_int_add_r. apply wrap_int_id. int_range. }
  rewrite Hadd.
  destruct (Z.gtb_spec (len b + size) c) as [Hgt|Hle].
  - destruct (expand_builder_of b c (len b + size)) as (c' & He & Hlc' & Hcc');
      [lia | lia |].
    rewrite He. cbn [bind]. rewrite buf_reslice_builder_of by lia. cbn [bind].
    exists c'. replace (len b + size - len b) with size by lia.
    split; [reflexivity | lia].
  - cbn [bind]. rewrite buf_reslice_builder_of by lia. cbn [bind].
    exists c. replace (len b + size - len b) with size by lia.
    split; [reflexivity | lia].
Qed.

(** [Align] pads the buffer with zero bytes up to the next multiple of a
    power of two. *)
Lemma Align_builder_of b c k :
  len b <= c <= maxAlloc -> 0 <= k -> len b + 2 ^ k - 1 <= 2 ^ 47 ->
  exists c', Builder.Align (builder_of b c) (2 ^ k)
               = Ok (builder_of (b ++ padding (len b) (2 ^ k)) c') /\
             c <= c' <= maxAlloc /\
             len (b ++ padding (len b) (2 ^ k)) <= c' /\
             len (b ++ padding (len b) (2 ^ k)) = 2 ^ k * ((len b + 2 ^ k - 1) / 2 ^ k).
Proof.
  intros Hc Hk Hl. unfold Builder.Align. pose proof (len_nonneg b) as Hb.
  rewrite blen_builder_of, cap_builder_of by lia.
  assert (Hp : 0 < 2 ^ k) by (apply Z.pow_pos_nonneg; lia).
  rewrite align_no_overflow by (try lia; int_range).
  pose proof (Z.div_mod (len b + 2 ^ k - 1) (2 ^ k) ltac:(lia)) as Hdm.
  pose proof (Z.mod_pos_bound (len b + 2 ^ k - 1) (2 ^ k) Hp) as Hmb.
  set (l := 2 ^ k * ((len b + 2 ^ k - 1) / 2 ^ k)) in *.
  assert (Hlen : len (b ++ padding (len b) (2 ^ k)) = l).
  { unfold padding. fold l. rewrite len_app, len_repeat, Z2Nat.id by lia. lia. }
  assert (Hpad : repeat x00 (Z.to_nat (l - len b)) = padding (len b) (2 ^ k))
    by reflexivity.
  rewrite Hlen.
  destruct (Z.gtb_spec l c) as [Hgt|Hle].
  - destruct (expand_builder_of b c l) as (c' & He & Hlc' & Hcc'); [lia | lia |].
    rewrite He. cbn [bind]. rewrite buf_reslice_builder_of, Hpad by lia.
    exists c'. split; [reflexivity|]. split; [lia|]. split; [lia | reflexivity].
  - cbn [bind]. rewrite buf_reslice_builder_of, Hpad by lia.
    exists c. split; [reflexivity|]. split; [lia|]. split; [lia | reflexivity].
Qed.

Lemma padding_4_len p : 0 <= p -> len (padding p 4) = 4 * ((p + 3) / 4) - p.
Proof.
  intros Hp. unfold padding. rewrite len_repeat.
  replace (p + 4 - 1) with (p + 3) by lia.
  pose proof (Z.div_mod (p + 3) 4 ltac:(lia)).
  pose proof (Z.mod_pos_bound (p + 3) 4 ltac:(lia)). lia.
Qed.

Lemma padding_4_bound p : 0 <= p -> 0 <= len (padding p 4) <= 3.
Proof.
  intros Hp. rewrite padding_4_len by assumption.
  pose proof (Z.div_mod (p + 3) 4 ltac:(lia)).
  pose proof (Z.mod_pos_bound (p + 3) 4 ltac:(lia)). lia.
Qed.

Lemma padding_4_aligned p : 0 <= p -> p mod 4 = 0 -> padding p 4 = [].
Proof.
  intros Hp Hm.
  assert (H : len (padding p 4) = 0).
  { rewrite padding_4_len by assumption.
    pose proof (Z.div_mod p 4 ltac:(lia)).
    replace (p + 3) with (3 + (p / 4) * 4) by lia.
    rewrite Z.div_add by lia. change (3 / 4) with 0. lia. }
  destruct (padding p 4); [reflexivity | unfold len in H; simpl in H; lia].
Qed.

Lemma len_padded_mod_4 (b : list byte) : len (b ++ padding (len b) 4) mod 4 = 0.
Proof.
  pose proof (len_nonneg b). rewrite len_app, padding_4_len by assumption.
  replace (len b + (4 * ((len b + 3) / 4) - len b)) with (((len b + 3) / 4) * 4) by lia.
  apply Z_mod_mult.
Qed.

(** Writing a field of the buffer of a builder. *)
Lemma buf_set_field_app bo (pre old post : list byte) c p f v :
  p + fst f = len pre -> length old = snd f ->
  buf_set_field bo (builder_of (pre ++ old ++ post) c) p f v
    = Ok (builder_of (pre ++ encode bo (snd f) v ++ post) c).
Proof.
  intros Hp Hold. unfold buf_set_field, set_field.
  rewrite buf_builder_of, Hp, store_app by assumption. cbn [bind].
  assert (Hlen : len (pre ++ encode bo (snd f) v ++ post) = len (pre ++ old ++ post))
    by (rewrite !len_app, len_encode; unfold len; lia).
  unfold builder_of. cbn [arr blen]. rewrite skipn_len_app, Hlen. reflexivity.
Qed.

Lemma skipn_repeat_S {A : Type} (x : A) n : skipn n (repeat x (S n)) = [x].
Proof. induction n as [|n IH]; [reflexivity | exact IH]. Qed.

(** [addStringZ] appends the string and a zero byte. *)
Lemma addStringZ_builder_of b c str :
  len b <= c <= maxAlloc -> len b + len str + 1 <= 2 ^ 47 ->
  exists c', Builder.addStringZ (builder_of b c) str
               = Ok (builder_of (b ++ str ++ [x00]) c') /\
             c <= c' <= maxAlloc /\ len (b ++ str ++ [x00]) <= c'.
Proof.
  intros Hc Hl. unfold Builder.addStringZ.
  pose proof (len_nonneg b) as Hb. pose proof (len_nonneg str) as Hs.
  assert (Hsz : wrap_uintptr (wrap_uintptr (len str) + 1) = len str + 1).
  { unfold wrap_uintptr. rewrite (Z.mod_small (len str)) by lia.
    apply Z.mod_small. lia. }
  rewrite Hsz.
  destruct (Grow_builder_of b c (len str + 1)) as (c' & Hg & Hcc' & Hfit);
    [assumption | lia | lia |].
  rewrite Hg. cbn [bind].
  replace (Z.to_nat (len str + 1)) with (S (length str))
    by (unfold len; lia).
  set (z := repeat x00 (S (length str))).
  assert (Hz : len z = len str + 1) by (unfold z; rewrite len_repeat; unfold len; lia).
  rewrite buf_builder_of, blen_builder_of.
  assert (Hsl : slice (b ++ z) (len b) (len (b ++ z)) = Ok z).
  { rewrite <- (app_nil_r z) at 1. apply slice_app; [reflexivity|].
    rewrite len_app. reflexivity. }
  rewrite Hsl. cbn [bind]. rewrite firstn_len_app.
  assert (Hmin : Nat.min (length z) (length str) = length str).
  { unfold z. rewrite repeat_length. lia. }
  rewrite Hmin, firstn_all.
  assert (Hdrop : skipn (length str) z = [x00]) by apply skipn_repeat_S.
  rewrite Hdrop.
  set (b1 := b ++ str ++ [x00]).
  assert (Hb1 : len b1 = len (b ++ z)).
  { unfold b1. rewrite !len_app, Hz. change (len [x00]) with 1. lia. }
  assert (Hi : int_add (len b) (len str) = len b + len str).
  { unfold int_add. apply wrap_int_id. int_range. }
  rewrite Hi. unfold elem_addr.
  destruct (Z.leb_spec 0 (len b + len str)); [|lia].
  destruct (Z.ltb_spec (len b + len str) (len b1));
    [|rewrite Hb1, len_app, Hz in *; lia].
  cbn [andb bind].
  assert (Ht : firstn (Z.to_nat (len b + len str)) b1 = b ++ str).
  { unfold b1. rewrite app_assoc, <- len_app. apply firstn_len_app. }
  assert (Hd : skipn (S (Z.to_nat (len b + len str))) b1 = []).
  { apply skipn_all2. unfold b1. rewrite !length_app. unfold len. simpl. lia. }
  rewrite Ht, Hd.
  exists c'. split; [|split; [assumption|fold b1; rewrite Hb1, len_app, Hz; lia]].
  unfold builder_of at 1 2. cbn [arr].
  rewrite skipn_len_app. unfold builder_of. fold b1.
  replace ((b ++ str) ++ [x00]) with b1 by (unfold b1; now rewrite <- app_assoc).
  rewrite Hb1. reflexivity.
Qed.


(** [PutRtAttr] with a generator that appends the bytes [payload]: after the
    padding that aligns the buffer come the prefix, with the type and with
    the length of prefix and payload as a [uint16], and the payload. *)
Lemma PutRtAttr_builder_of bo b c typ gen payload :
  len b <= c <= maxAlloc -> len b + len payload + 16 <= 2 ^ 47 ->
  (forall c1, len ((b ++ padding (len b) 4) ++ repeat x00 4) <= c1 <= maxAlloc ->
     exists c2,
       gen (builder_of ((b ++ padding (len b) 4) ++ repeat x00 4) c1)
         = Ok (builder_of (((b ++ padding (len b) 4) ++ repeat x00 4) ++ payload) c2) /\
       c2 <= maxAlloc /\
       len (((b ++ padding (len b) 4) ++ repeat x00 4) ++ payload) <= c2) ->
  exists c',
    Builder.PutRtAttr bo (builder_of b c) typ gen
      = Ok (builder_of (b ++ padding (len b) 4
                        ++ encode bo 2 (wrap_uint16 (4 + len payload))
                        ++ encode bo 2 typ ++ payload) c') /\
    c' <= maxAlloc /\
    len (b ++ padding (len b) 4 ++ encode bo 2 (wrap_uint16 (4 + len payload))
         ++ encode bo 2 typ ++ payload) <= c'.
Proof.
  intros Hc Hl Hgen. unfold Builder.PutRtAttr.
  pose proof (len_nonneg b) as Hb. pose proof (len_nonneg payload) as Hpl.
  pose proof (padding_4_bound (len b) Hb) as Hpad.
  change NLMSG_ALIGNTO with (2 ^ 2). change RTA_ALIGNTO with (2 ^ 2).
  change SizeofRtAttr with 4.
  destruct (Align_builder_of b c 2) as (c1 & Ha1 & Hc1 & Hf1 & _);
    [assumption | lia | change (2 ^ 2) with 4; lia |].
  rewrite Ha1. cbn [bind]. change (2 ^ 2) with 4 in *.
  set (b0 := b ++ padding (len b) 4) in *.
  assert (Hb0 : len b0 = len b + len (padding (len b) 4))
    by (unfold b0; apply len_app).
  destruct (Grow_builder_of b0 c1 4) as (c2 & Hg & Hc2 & Hf2); [lia | lia | lia |].
  rewrite Hg. cbn [bind]. change (Z.to_nat 4) with 4%nat.
  set (b1 := b0 ++ repeat x00 4) in *.
  assert (Hb1 : len b1 = len b0 + 4)
    by (unfold b1; rewrite len_app, len_repeat; reflexivity).
  change 4 with (2 ^ 2) at 1.
  destruct (Align_builder_of b1 c2 2) as (c3 & Ha3 & Hc3 & Hf3 & _);
    [lia | lia | change (2 ^ 2) with 4; lia |].
  rewrite Ha3. cbn [bind]. change (2 ^ 2) with 4.
  rewrite (padding_4_aligned (len b1)), app_nil_r.
  2:{ lia. }
  2:{ rewrite Hb1, <- Zplus_mod_idemp_l. unfold b0. rewrite len_padded_mod_4.
      reflexivity. }
  destruct (Hgen c3) as (c4 & Hgn & Hc4 & Hf4); [lia|].
  rewrite len_app, Hb1 in Hf4.
  fold b0 in Hgn. fold b1 in Hgn. rewrite Hgn. cbn [bind].
  rewrite buf_builder_of. unfold rtAttrAt, elem_addr.
  rewrite len_app, Hb1.
  destruct (Z.leb_spec 0 (len b0)); [|lia].
  destruct (Z.ltb_spec (len b0) (len b0 + 4 + len payload)); [|lia].
  cbn [andb bind].
  replace (b1 ++ payload)
    with ((b0 ++ [x00; x00]) ++ [x00; x00] ++ payload)
    by (unfold b1; rewrite <- !app_assoc; reflexivity).
  rewrite (buf_set_field_app bo (b0 ++ [x00; x00]) [x00; x00] payload c4
             (len b0) RtAttr.Type_ typ)
    by (rewrite ?len_app; reflexivity).
  cbn [bind]. cbn [snd RtAttr.Type_].
  rewrite <- (app_assoc b0).
  rewrite (buf_set_field_app bo b0 [x00; x00] (encode bo 2 typ ++ payload) c4
             (len b0) RtAttr.Len)
    by (try reflexivity; cbn [fst RtAttr.Len]; lia).
  cbn [snd RtAttr.Len].
  exists c4. split; [|split; [lia|]].
  2:{ fold b0. rewrite (app_assoc b), !len_app, !len_encode. fold b0.
      change (Z.of_nat 2) with 2. lia. }
  rewrite blen_builder_of, !len_app, len_encode.
  change (len [x00; x00]) with 2. change (Z.of_nat 2) with 2.
  assert (Hsub : int_sub (len b0 + (2 + (2 + len payload))) (len b0) = 4 + len payload).
  { unfold int_sub. rewrite wrap_int_id by int_range. lia. }
  rewrite Hsub. unfold b0. rewrite <- app_assoc. reflexivity.
Qed.

(** [PutStringRtAttr] appends one well-formed record whose value is the
    string and a terminating zero byte. *)
Lemma PutStringRtAttr_builder_of bo b c typ str :
  len b <= c <= maxAlloc -> len b + len str + 17 <= 2 ^ 47 ->
  exists c',
    Builder.PutStringRtAttr bo (builder_of b c) typ str
      = Ok (builder_of (b ++ padding (len b) 4
                        ++ encode bo 2 (wrap_uint16 (4 + len (str ++ [x00])))
                        ++ encode bo 2 typ ++ str ++ [x00]) c') /\
    c' <= maxAlloc /\
    len (b ++ padding (len b) 4 ++ encode bo 2 (wrap_uint16 (4 + len (str ++ [x00])))
         ++ encode bo 2 typ ++ str ++ [x00]) <= c'.
Proof.
  intros Hc Hl. unfold Builder.PutStringRtAttr.
  pose proof (len_nonneg b) as Hb. pose proof (len_nonneg str) as Hs.
  pose proof (padding_4_bound (len b) Hb) as Hpad.
  apply PutRtAttr_builder_of; [assumption | |].
  - rewrite len_app. change (len [x00]) with 1. lia.
  - intros c1 Hc1. cbv beta.
    destruct (addStringZ_builder_of ((b ++ padding (len b) 4) ++ repeat x00 4) c1 str)
      as (c2 & Hadd & Hc2 & Hf2).
    + assumption.
    + rewrite !len_app, len_repeat. change (Z.of_nat 4) with 4. lia.
    + exists c2. split; [exact Hadd|]. split; [lia | exact Hf2].
Qed.


Lemma encode_zero bo n : encode bo n 0 = repeat x00 n.
Proof.
  assert (H : forall n, le_encode n 0 = repeat x00 n).
  { clear. induction n as [|n IH]; [reflexivity|].
    cbn [le_encode repeat]. rewrite Z.div_0_l by lia. now rewrite IH. }
  destruct bo; cbn [encode]; rewrite H; [reflexivity|].
  clear. induction n as [|n IH]; [reflexivity|].
  cbn [repeat rev]. rewrite IH. symmetry. apply repeat_cons.
Qed.

(** A new builder holds a header in which only the type and the flags are
    set. *)
Lemma NewNlMsgBuilder_builder_of bo F T :
  Builder.NewNlMsgBuilder bo F T = Ok (builder_of (mk_hdr bo 0 T F 0 0) 16).
Proof.
  rewrite NewNlMsgBuilder_bytes. unfold builder_of, mk_hdr.
  rewrite !len_app, !len_encode, !encode_zero. cbn [Z.of_nat].
  change (Z.to_nat (16 - _)) with 0%nat. cbn [repeat]. rewrite app_nil_r.
  reflexivity.
Qed.

(** [Finish] overwrites the length and the sequence number of the header
    and nothing else; the counter moves on by one. *)
Lemma Finish_builder_of bo (hl mid hs rest : list byte) c nextSeqNo :
  length hl = 4%nat -> length mid = 4%nat -> length hs = 4%nat ->
  let b := hl ++ mid ++ hs ++ rest in
  let seq := wrap_uint32 (nextSeqNo + 1) in
  Builder.Finish bo (builder_of b c) nextSeqNo
    = Ok (encode bo 4 (wrap_uint32 (len b)) ++ mid ++ encode bo 4 seq ++ rest,
          seq, {| arr := []; blen := 0 |}, seq).
Proof.
  intros Hhl Hmid Hhs b seq. unfold Builder.Finish.
  rewrite buf_builder_of, blen_builder_of. unfold nlMsghdrAt, elem_addr.
  assert (Hlen : len b = 12 + len rest).
  { unfold b. rewrite !len_app. unfold len. lia. }
  pose proof (len_nonneg rest).
  destruct (Z.ltb_spec 0 (len b)); [|lia]. cbn [Z.leb andb bind].
  change (0 <=? 0) with true. cbn [andb bind].
  unfold b at 1.
  rewrite (buf_set_field_app bo [] hl (mid ++ hs ++ rest) c 0 NlMsghdr.Len)
    by (try reflexivity; assumption).
  cbn [bind app snd NlMsghdr.Len].
  fold seq.
  replace (encode bo 4 (wrap_uint32 (len b)) ++ mid ++ hs ++ rest)
    with ((encode bo 4 (wrap_uint32 (len b)) ++ mid) ++ hs ++ rest)
    by (now rewrite <- app_assoc).
  rewrite (buf_set_field_app bo _ hs rest c 0 NlMsghdr.Seq)
    by (try assumption; rewrite len_app, len_encode; unfold len; rewrite Hmid;
        reflexivity).
  cbn [bind snd NlMsghdr.Seq]. rewrite buf_builder_of.
  rewrite <- app_assoc. reflexivity.
Qed.


(** ** Attribute streams as bytes *)

Lemma len_tlv_bytes bo t v : len (tlv_bytes bo t v) = 4 + len v.
Proof. unfold tlv_bytes. rewrite !len_app, !len_encode. lia. Qed.

(** The bytes of a sequence of records are a well-formed stream: the parser
    side reading of what the builder side lays out. *)
Lemma tlv_stream_bytes bo rs : forall pre,
  Forall attr_ok rs ->
  tlv_stream bo (pre ++ stream_bytes bo (len pre) rs) (len pre) rs.
Proof.
  induction rs as [|[t v] rs IH]; intros pre Hok.
  - cbn [stream_bytes tlv_stream]. rewrite app_nil_r.
    pose proof (len_nonneg pre).
    pose proof (Z.div_mod (len pre + 3) 4 ltac:(lia)).
    pose proof (Z.mod_pos_bound (len pre + 3) 4 ltac:(lia)). lia.
  - inversion Hok as [|? ? [Ht Hv] Hrs]; subst. cbn [fst snd] in *.
    cbn [stream_bytes tlv_stream]. cbv zeta.
    change RTA_ALIGNTO with 4. change SizeofRtAttr with 4 in *.
    pose proof (len_nonneg pre) as Hpre. pose proof (len_nonneg v) as Hlv.
    set (pad := padding (len pre) 4).
    assert (Ha : 4 * ((len pre + 3) / 4) = len (pre ++ pad)).
    { unfold pad. rewrite len_app, padding_4_len by assumption. lia. }
    rewrite Ha.
    set (S := stream_bytes bo (len pre + len (pad ++ tlv_bytes bo t v)) rs).
    assert (Hdata : pre ++ (pad ++ tlv_bytes bo t v) ++ S
                    = (pre ++ pad) ++ encode bo 2 (4 + len v)
                      ++ encode bo 2 t ++ v ++ S).
    { unfold tlv_bytes. change SizeofRtAttr with 4.
      rewrite <- !app_assoc. reflexivity. }
    split.
    + rewrite Hdata. unfold tlv_at, get_field, RtAttr.Len, RtAttr.Type_.
      cbn [fst snd]. change SizeofRtAttr with 4. split; [|split].
      * apply load_app_at; [lia|]. change (256 ^ Z.of_nat 2) with (2 ^ 16). lia.
      * rewrite (app_assoc (pre ++ pad)).
        apply load_app_at; [rewrite (len_app (pre ++ pad)), len_encode; reflexivity|].
        exact Ht.
      * rewrite (app_assoc (pre ++ pad)), (app_assoc (_ ++ _) (encode bo 2 t)).
        apply slice_app; rewrite !(len_app (_ ++ _)), !len_encode; lia.
    + unfold S.
      replace (len pre + len (pad ++ tlv_bytes bo t v))
        with (len (pre ++ pad ++ tlv_bytes bo t v)) by (rewrite !len_app; lia).
      replace (len (pre ++ pad) + 4 + len v)
        with (len (pre ++ pad ++ tlv_bytes bo t v))
        by (rewrite !len_app, len_tlv_bytes; lia).
      rewrite (app_assoc pre). apply IH. assumption.
Qed.

Lemma len_stream_bytes bo rs : forall p,
  0 <= p -> Forall attr_ok rs ->
  0 <= len (stream_bytes bo p rs) <= (2 ^ 16 + 3) * len rs.
Proof.
  induction rs as [|[t v] rs IH]; intros p Hp Hok.
  - change (len (stream_bytes bo p [])) with 0.
    change (len (@nil (Z * list byte))) with 0. lia.
  - inversion Hok as [|? ? [Ht Hv] Hrs]; subst. cbn [fst snd] in *.
    cbn [stream_bytes]. cbv zeta. change RTA_ALIGNTO with 4.
    change SizeofRtAttr with 4 in *.
    rewrite !len_app, len_tlv_bytes.
    pose proof (padding_4_bound p Hp) as Hpad. pose proof (len_nonneg v).
    specialize (IH (p + (len (padding p 4) + (4 + len v))) ltac:(lia) Hrs).
    assert (Hl : len ((t, v) :: rs) = 1 + len rs) by (unfold len; cbn [length]; lia).
    rewrite Hl. lia.
Qed.

(** A sequence of [PutStringRtAttr] calls appends the stream of the
    attributes, each string with its terminator. *)
Lemma put_strings_builder_of bo l : forall b c,
  len b <= c <= maxAlloc ->
  Forall attr_ok (map stringz l) ->
  len b + len (stream_bytes bo (len b) (map stringz l)) + 16 <= 2 ^ 47 ->
  exists c',
    put_strings bo (builder_of b c) l
      = Ok (builder_of (b ++ stream_bytes bo (len b) (map stringz l)) c') /\
    c' <= maxAlloc /\
    len (b ++ stream_bytes bo (len b) (map stringz l)) <= c'.
Proof.
  induction l as [|[a s] l IH]; intros b c Hc Hok Hsz.
  - cbn [put_strings map stream_bytes]. rewrite app_nil_r. exists c.
    split; [reflexivity|lia].
  - cbn [map] in Hok, Hsz. cbn [put_strings map].
    change (stringz (a, s)) with (a, s ++ [x00]) in *.
    inversion Hok as [|? ? [Ha Hv] Hrs]; subst. cbn [fst snd] in *.
    cbn [stream_bytes] in *. cbv zeta in *. change RTA_ALIGNTO with 4 in *.
    change SizeofRtAttr with 4 in *.
    pose proof (len_nonneg b) as Hb. pose proof (len_nonneg s) as Hs.
    pose proof (padding_4_bound (len b) Hb) as Hpad.
    set (r := padding (len b) 4 ++ tlv_bytes bo a (s ++ [x00])) in *.
    assert (Hr : len r = len (padding (len b) 4) + 5 + len s).
    { unfold r. rewrite len_app, len_tlv_bytes, len_app. change (len [x00]) with 1. lia. }
    rewrite len_app in Hsz.
    pose proof (len_nonneg (stream_bytes bo (len b + len r) (map stringz l))) as Hrest.
    destruct (PutStringRtAttr_builder_of bo b c a s) as (c1 & Hput & Hc1 & Hf1);
      [assumption | lia |].
    rewrite Hput. cbn [bind].
    assert (Hw : wrap_uint16 (4 + len (s ++ [x00])) = 4 + len (s ++ [x00])).
    { unfold wrap_uint16. apply Z.mod_small. pose proof (len_nonneg (s ++ [x00])). lia. }
    rewrite Hw in *.
    replace (b ++ padding (len b) 4 ++ encode bo 2 (4 + len (s ++ [x00]))
               ++ encode bo 2 a ++ s ++ [x00])
      with (b ++ r) in *
      by (unfold r, tlv_bytes; reflexivity).
    destruct (IH (b ++ r) c1) as (c' & Hrec & Hc' & Hf').
    + lia.
    + assumption.
    + rewrite len_app. lia.
    + rewrite (len_app b r) in Hrec, Hf'. rewrite Hrec. exists c'.
      rewrite <- app_assoc in Hf'. rewrite <- app_assoc.
      split; [reflexivity | lia].
Qed.


(** ** Messages built and parsed *)

Lemma len_map {A B : Type} (f : A -> B) (l : list A) : len (map f l) = len l.
Proof. unfold len. now rewrite length_map. Qed.

Lemma len_mk_hdr bo hlen typ flags seq pid : len (mk_hdr bo hlen typ flags seq pid) = 16.
Proof. unfold mk_hdr. rewrite !len_app, !len_encode. reflexivity. Qed.

Lemma build_message_stream bo F T l nextSeqNo :
  Forall attr_ok (map stringz l) -> len l <= 2 ^ 30 ->
  let body := stream_bytes bo 16 (map stringz l) in
  let seq := wrap_uint32 (nextSeqNo + 1) in
  build_message bo F T l nextSeqNo
    = Ok (mk_hdr bo (wrap_uint32 (16 + len body)) T F seq 0 ++ body, seq).
Proof.
  intros Hok Hn body seq. unfold build_message.
  rewrite NewNlMsgBuilder_builder_of. cbn [bind].
  assert (Hbody : 0 <= len body <= (2 ^ 16 + 3) * 2 ^ 30).
  { pose proof (len_stream_bytes bo (map stringz l) 16 ltac:(lia) Hok) as H.
    rewrite len_map in H. fold body in H. lia. }
  destruct (put_strings_builder_of bo l (mk_hdr bo 0 T F 0 0) 16)
    as (c' & Hput & _).
  - rewrite len_mk_hdr. unfold maxAlloc. lia.
  - assumption.
  - rewrite len_mk_hdr. fold body. lia.
  - rewrite len_mk_hdr in Hput. fold body in Hput. rewrite Hput. cbn [bind].
    unfold mk_hdr at 1. rewrite <- !app_assoc.
    rewrite (app_assoc (encode bo 2 T) (encode bo 2 F)).
    rewrite Finish_builder_of
      by (rewrite ?length_app, ?length_encode; reflexivity).
    cbn [bind]. fold seq. f_equal. f_equal. unfold mk_hdr.
    rewrite !len_app, !len_encode. rewrite <- !app_assoc.
    do 2 f_equal. f_equal. lia.
Qed.

(** The header of a message laid out by [mk_hdr] reads back field by
    field. *)
Lemma hdr_mk_hdr bo hlen typ flags seq pid rest :
  is_uint32 hlen -> is_uint16 typ -> is_uint16 flags -> is_uint32 seq -> is_uint32 pid ->
  let d := mk_hdr bo hlen typ flags seq pid ++ rest in
  hdr bo d NlMsghdr.Len = Ok hlen /\
  hdr bo d NlMsghdr.Type_ = Ok typ /\
  hdr bo d NlMsghdr.Flags = Ok flags /\
  hdr bo d NlMsghdr.Seq = Ok seq /\
  hdr bo d NlMsghdr.Pid = Ok pid.
Proof.
  intros Hl Ht Hf Hs Hp d. unfold is_uint32, is_uint16 in *.
  unfold d, hdr, get_field, mk_hdr,
    NlMsghdr.Len, NlMsghdr.Type_, NlMsghdr.Flags, NlMsghdr.Seq, NlMsghdr.Pid.
  cbn [fst snd]. rewrite <- !app_assoc.
  split; [|split; [|split; [|split]]].
  - apply (load_app_at bo []); [reflexivity | exact Hl].
  - apply (load_app_at bo (encode bo 4 hlen)); [now rewrite len_encode | exact Ht].
  - rewrite (app_assoc (encode bo 4 hlen)).
    apply load_app_at; [now rewrite len_app, !len_encode | exact Hf].
  - rewrite (app_assoc (encode bo 4 hlen)), (app_assoc (_ ++ _) (encode bo 2 flags)).
    apply load_app_at; [now rewrite !len_app, !len_encode | exact Hs].
  - rewrite (app_assoc (encode bo 4 hlen)), (app_assoc (_ ++ _) (encode bo 2 flags)),
      (app_assoc (_ ++ _) (encode bo 4 seq)).
    apply load_app_at; [now rewrite !len_app, !len_encode | exact Hp].
Qed.

Lemma parse_message_mk_hdr bo hlen typ flags seq pid rs :
  is_uint16 typ -> Forall attr_ok rs -> len rs <= 2 ^ 30 ->
  parse_message bo typ (mk_hdr bo hlen typ flags seq pid ++ stream_bytes bo 16 rs)
    = Ok (Some 0, attrs_of rs ∅, None).
Proof.
  intros Ht Hok Hn.
  set (h := mk_hdr bo hlen typ flags seq pid).
  set (d := h ++ stream_bytes bo 16 rs).
  assert (Hh : len h = 16) by apply len_mk_hdr.
  pose proof (len_stream_bytes bo rs 16 ltac:(lia) Hok) as Hbody.
  assert (Hd : len d = 16 + len (stream_bytes bo 16 rs))
    by (unfold d; rewrite len_app, Hh; reflexivity).
  assert (Htype : hdr bo d NlMsghdr.Type_ = Ok typ).
  { unfold d, h, hdr, get_field, mk_hdr, NlMsghdr.Type_. cbn [fst snd].
    rewrite <- !app_assoc.
    apply (load_app_at bo (encode bo 4 hlen)); [now rewrite len_encode | exact Ht]. }
  assert (Hstream : tlv_stream bo d 16 rs).
  { unfold d. rewrite <- Hh. apply tlv_stream_bytes. assumption. }
  destruct (TakeAttrs_stream bo d 16 rs) as [st Hst];
    [unfold allocatable, maxAlloc; lia | lia | unfold max_int; lia | exact Hstream |].
  unfold parse_message.
  rewrite (TakeNlMsghdr_header_at_0 bo (NewNlMsgButcher d) typ typ)
    by (try exact Htype; cbn [NewNlMsgButcher data]; unfold NLMSG_HDRLEN; lia).
  cbv zeta. rewrite Z.eqb_refl. cbn [bind].
  change (set_pos (NewNlMsgButcher d) (int_add (pos (NewNlMsgButcher d)) NLMSG_HDRLEN))
    with {| data := d; pos := 16 |}.
  rewrite Hst. reflexivity.
Qed.

(** Round trip: a message built from any list of string attributes, with
    any flags, type and counter, parses back to the map of the attributes,
    each bound to its string and a terminating zero byte (the last one for a
    type that occurs more than once). *)
Theorem build_parse_roundtrip bo F T l nextSeqNo :
  is_uint16 T -> Forall attr_ok (map stringz l) -> len l <= 2 ^ 30 ->
  exists res seq,
    build_message bo F T l nextSeqNo = Ok (res, seq) /\
    parse_message bo T res = Ok (Some 0, attrs_of (map stringz l) ∅, None).
Proof.
  intros Ht Hok Hn. eexists _, _. split.
  - apply build_message_stream; assumption.
  - apply parse_message_mk_hdr; try assumption.
    rewrite len_map. assumption.
Qed.

Lemma build_parse_roundtrip_witness :
  exists res seq,
    build_message LittleEndian 5 16 [(3, eth0); (4, []); (3, [x41])] 41 = Ok (res, seq) /\
    parse_message LittleEndian 16 res
      = Ok (Some 0, attrs_of (map stringz [(3, eth0); (4, []); (3, [x41])]) ∅, None).
Proof.
  apply (build_parse_roundtrip LittleEndian 5 16 [(3, eth0); (4, []); (3, [x41])] 41).
  - unfold is_uint16. lia.
  - repeat constructor; vm_compute; congruence.
  - vm_compute. discriminate.
Defined.


(** The bytes of a message built from string attributes: the header, with
    the length of the message as a [uint32], the type, the flags, the next
    sequence number and a zero port id, and the stream of the attributes. *)
Theorem build_message_bytes bo F T l nextSeqNo :
  Forall attr_ok (map stringz l) -> len l <= 2 ^ 30 ->
  let body := stream_bytes bo 16 (map stringz l) in
  let seq := wrap_uint32 (nextSeqNo + 1) in
  build_message bo F T l nextSeqNo
    = Ok (mk_hdr bo (wrap_uint32 (16 + len body)) T F seq 0 ++ body, seq).
Proof. exact (build_message_stream bo F T l nextSeqNo). Qed.

Lemma build_message_bytes_witness :
  build_message LittleEndian 5 16 [(3, eth0); (4, [])] 41
    = Ok (mk_hdr LittleEndian 33 16 5 42 0
          ++ [x09; x00; x03; x00; "e"; "t"; "h"; "0"; x00; x00; x00; x00;
              x05; x00; x04; x00; x00]%byte, 42).
Proof.
  apply (build_message_bytes LittleEndian 5 16 [(3, eth0); (4, [])] 41).
  - repeat constructor; vm_compute; congruence.
  - vm_compute. discriminate.
Defined.

(** Parsing a header that carries the expected type, followed by the bytes
    of a sequence of records, gives the map of the records. *)
Theorem parse_message_stream bo hlen typ flags seq pid rs :
  is_uint16 typ -> Forall attr_ok rs -> len rs <= 2 ^ 30 ->
  parse_message bo typ (mk_hdr bo hlen typ flags seq pid ++ stream_bytes bo 16 rs)
    = Ok (Some 0, attrs_of rs ∅, None).
Proof. exact (parse_message_mk_hdr bo hlen typ flags seq pid rs). Qed.

Lemma parse_message_stream_witness :
  parse_message LittleEndian 16
    (mk_hdr LittleEndian 33 16 5 42 0
     ++ stream_bytes LittleEndian 16 [(3, eth0z); (4, [x00])])
    = Ok (Some 0, attrs_of [(3, eth0z); (4, [x00])] ∅, None).
Proof.
  apply (parse_message_stream LittleEndian 33 16 5 42 0 [(3, eth0z); (4, [x00])]).
  - unfold is_uint16. lia.
  - repeat constructor; vm_compute; congruence.
  - vm_compute. discriminate.
Defined.


(** ** The builder: what its operations guarantee *)

Lemma builder_wf_canon nlmsg :
  builder_wf nlmsg ->
  nlmsg = builder_of (buf nlmsg) (cap nlmsg) /\ len (buf nlmsg) = blen nlmsg.
Proof.
  destruct nlmsg as [a n]. unfold builder_wf, builder_of, buf, cap.
  cbn [arr blen]. intros (Hn & Hc & Hz).
  assert (Hlen : len (firstn (Z.to_nat n) a) = n).
  { unfold len in *. rewrite length_firstn. lia. }
  split; [|exact Hlen]. rewrite Hlen. f_equal.
  rewrite <- Hz. symmetry. apply firstn_skipn.
Qed.

Lemma builder_of_wf b c : len b <= c <= maxAlloc -> builder_wf (builder_of b c).
Proof.
  intros Hc. pose proof (len_nonneg b). unfold builder_wf.
  rewrite cap_builder_of, blen_builder_of by lia.
  split; [lia|]. split; [lia|].
  unfold builder_of. cbn [arr]. apply skipn_len_app.
Qed.

Ltac canon nlmsg Hwf :=
  let Heq := fresh "Heq" in
  let Hlen := fresh "Hlen" in
  let b := fresh "b" in
  let c := fresh "c" in
  let Hfit := fresh "Hfit" in
  destruct (builder_wf_canon nlmsg Hwf) as [Heq Hlen];
  assert (Hfit : len (buf nlmsg) <= cap nlmsg <= maxAlloc)
    by (destruct Hwf as (? & ? & _); lia);
  set (b := buf nlmsg) in *; set (c := cap nlmsg) in *;
  clearbody b c; subst nlmsg;
  rewrite ?buf_builder_of, ?blen_builder_of in *.

(** [expand]: the bytes and the length of the buffer are kept, and the
    capacity grows to at least [l]. *)
Theorem expand_contract nlmsg l :
  builder_wf nlmsg -> cap nlmsg <= 2 ^ 47 -> l <= 2 ^ 47 ->
  exists nlmsg',
    Builder.expand nlmsg l = Ok nlmsg' /\
    buf nlmsg' = buf nlmsg /\ blen nlmsg' = blen nlmsg /\
    l <= cap nlmsg' /\ cap nlmsg < cap nlmsg' /\ builder_wf nlmsg'.
Proof.
  intros Hwf Hcap Hl. canon nlmsg Hwf.
  destruct (expand_builder_of b c l) as (c' & He & Hlc & Hcc); [lia | lia |].
  exists (builder_of b c'). rewrite buf_builder_of, blen_builder_of.
  rewrite cap_builder_of by lia.
  repeat (split; [first [assumption | reflexivity | lia]|]).
  apply builder_of_wf. lia.
Qed.

Lemma expand_contract_witness :
  exists nlmsg',
    Builder.expand (builder_of [x01; x02; x03] 3) 10 = Ok nlmsg' /\
    buf nlmsg' = buf (builder_of [x01; x02; x03] 3) /\
    blen nlmsg' = blen (builder_of [x01; x02; x03] 3) /\
    10 <= cap nlmsg' /\ cap (builder_of [x01; x02; x03] 3) < cap nlmsg' /\
    builder_wf nlmsg'.
Proof.
  apply (expand_contract (builder_of [x01; x02; x03] 3) 10).
  - apply builder_of_wf. vm_compute. split; discriminate.
  - vm_compute. discriminate.
  - lia.
Defined.



(** [Align]: the buffer is padded with zero bytes up to the next multiple of
    a power of two, by less than that power of two. *)
Theorem Align_pads nlmsg k :
  builder_wf nlmsg -> 0 <= k -> blen nlmsg + 2 ^ k - 1 <= 2 ^ 47 ->
  exists nlmsg',
    Builder.Align nlmsg (2 ^ k) = Ok nlmsg' /\
    buf nlmsg' = buf nlmsg ++ padding (blen nlmsg) (2 ^ k) /\
    (2 ^ k | blen nlmsg') /\
    blen nlmsg <= blen nlmsg' < blen nlmsg + 2 ^ k /\
    builder_wf nlmsg'.
Proof.
  intros Hwf Hk Hl. canon nlmsg Hwf.
  destruct (Align_builder_of b c k) as (c' & Ha & Hcc & Hf & Hal); [lia | lia | lia |].
  exists (builder_of (b ++ padding (len b) (2 ^ k)) c').
  rewrite buf_builder_of, blen_builder_of, Hal.
  assert (Hp : 0 < 2 ^ k) by (apply Z.pow_pos_nonneg; lia).
  pose proof (Z.div_mod (len b + 2 ^ k - 1) (2 ^ k) ltac:(lia)) as Hdm.
  pose proof (Z.mod_pos_bound (len b + 2 ^ k - 1) (2 ^ k) Hp) as Hmb.
  split; [exact Ha|]. split; [reflexivity|].
  split; [exists ((len b + 2 ^ k - 1) / 2 ^ k); lia|].
  split; [lia|]. apply builder_of_wf. lia.
Qed.

Lemma Align_pads_witness :
  exists nlmsg',
    Builder.Align (builder_of [x01; x02; x03; x04; x05] 5) (2 ^ 2) = Ok nlmsg' /\
    buf nlmsg' = buf (builder_of [x01; x02; x03; x04; x05] 5)
                 ++ padding (blen (builder_of [x01; x02; x03; x04; x05] 5)) (2 ^ 2) /\
    (2 ^ 2 | blen nlmsg') /\
    blen (builder_of [x01; x02; x03; x04; x05] 5) <= blen nlmsg'
      < blen (builder_of [x01; x02; x03; x04; x05] 5) + 2 ^ 2 /\
    builder_wf nlmsg'.
Proof.
  apply (Align_pads (builder_of [x01; x02; x03; x04; x05] 5) 2).
  - apply builder_of_wf. vm_compute. split; discriminate.
  - lia.
  - vm_compute. discriminate.
Defined.


(** [PutRtAttr]: whatever bytes the generator appends, the builder ends up
    with the padding that aligns the record, a prefix holding the type and
    the length of prefix and payload (reduced to a [uint16]), and the
    payload. *)
Theorem PutRtAttr_emits_record bo nlmsg typ gen payload :
  builder_wf nlmsg -> blen nlmsg + len payload + 16 <= 2 ^ 47 ->
  (forall n1,
     builder_wf n1 ->
     buf n1 = (buf nlmsg ++ padding (blen nlmsg) 4) ++ repeat x00 4 ->
     exists n2, gen n1 = Ok n2 /\ buf n2 = buf n1 ++ payload /\ builder_wf n2) ->
  exists nlmsg',
    Builder.PutRtAttr bo nlmsg typ gen = Ok nlmsg' /\
    buf nlmsg' = buf nlmsg ++ padding (blen nlmsg) 4
                 ++ encode bo 2 (wrap_uint16 (4 + len payload))
                 ++ encode bo 2 typ ++ payload /\
    builder_wf nlmsg'.
Proof.
  intros Hwf Hl Hgen. canon nlmsg Hwf.
  destruct (PutRtAttr_builder_of bo b c typ gen payload) as (c' & Hput & Hc' & Hf');
    [lia | lia | |].
  - intros c1 Hc1.
    set (b1 := (b ++ padding (len b) 4) ++ repeat x00 4) in *.
    destruct (Hgen (builder_of b1 c1)) as (n2 & Hg & Hbuf & Hwf2).
    + apply builder_of_wf. assumption.
    + apply buf_builder_of.
    + rewrite buf_builder_of in Hbuf.
      destruct (builder_wf_canon n2 Hwf2) as [Heq2 Hlen2].
      exists (cap n2). rewrite Hg, Heq2 at 1. rewrite Hbuf.
      destruct Hwf2 as (Hb2 & Hc2 & _). rewrite <- Hbuf, Hlen2.
      split; [reflexivity | lia].
  - eexists. split; [exact Hput|]. rewrite buf_builder_of.
    split; [reflexivity|]. apply builder_of_wf. lia.
Qed.

(** An attribute with an empty value: the generator writes nothing. *)
Lemma PutRtAttr_emits_record_witness :
  exists nlmsg',
    Builder.PutRtAttr LittleEndian (builder_of [x01; x02; x03] 3) 7 (fun n => Ok n)
      = Ok nlmsg' /\
    buf nlmsg' = buf (builder_of [x01; x02; x03] 3)
                 ++ padding (blen (builder_of [x01; x02; x03] 3)) 4
                 ++ encode LittleEndian 2 (wrap_uint16 (4 + len (@nil byte)))
                 ++ encode LittleEndian 2 7 ++ [] /\
    builder_wf nlmsg'.
Proof.
  apply (PutRtAttr_emits_record LittleEndian (builder_of [x01; x02; x03] 3) 7
           (fun n => Ok n) []).
  - apply builder_of_wf. vm_compute. split; discriminate.
  - vm_compute. discriminate.
  - intros n1 Hwf1 _. exists n1. split; [reflexivity|].
    split; [now rewrite app_nil_r | exact Hwf1].
Defined.

(** [PutStringRtAttr]: one well-formed record is appended, whose value is
    the string followed by a zero byte. *)
Theorem PutStringRtAttr_emits_record bo nlmsg typ str :
  builder_wf nlmsg -> blen nlmsg <= 2 ^ 46 -> len str + 5 < 2 ^ 16 ->
  exists nlmsg',
    Builder.PutStringRtAttr bo nlmsg typ str = Ok nlmsg' /\
    buf nlmsg' = buf nlmsg ++ padding (blen nlmsg) 4
                 ++ tlv_bytes bo typ (str ++ [x00]) /\
    builder_wf nlmsg'.
Proof.
  intros Hwf Hl Hs. canon nlmsg Hwf. pose proof (len_nonneg str).
  destruct (PutStringRtAttr_builder_of bo b c typ str) as (c' & Hput & Hc' & Hf');
    [lia | lia |].
  assert (Hw : wrap_uint16 (4 + len (str ++ [x00])) = SizeofRtAttr + len (str ++ [x00])).
  { unfold wrap_uint16, SizeofRtAttr. rewrite len_app. change (len [x00]) with 1.
    apply Z.mod_small. lia. }
  rewrite Hw in *.
  eexists. split; [exact Hput|]. rewrite buf_builder_of.
  split; [reflexivity|]. apply builder_of_wf. lia.
Qed.

Lemma PutStringRtAttr_emits_record_witness :
  exists nlmsg',
    Builder.PutStringRtAttr LittleEndian (builder_of [x01; x02; x03] 3) 7 eth0
      = Ok nlmsg' /\
    buf nlmsg' = buf (builder_of [x01; x02; x03] 3)
                 ++ padding (blen (builder_of [x01; x02; x03] 3)) 4
                 ++ tlv_bytes LittleEndian 7 (eth0 ++ [x00]) /\
    builder_wf nlmsg'.
Proof.
  apply (PutStringRtAttr_emits_record LittleEndian (builder_of [x01; x02; x03] 3) 7 eth0).
  - apply builder_of_wf. vm_compute. split; discriminate.
  - vm_compute. discriminate.
  - vm_compute. reflexivity.
Defined.

(** Nesting: a string attribute put by the generator of another attribute
    is the value of the outer record, whose declared length covers it. *)
Theorem PutRtAttr_nested bo nlmsg outer inner str :
  builder_wf nlmsg -> blen nlmsg <= 2 ^ 46 -> len str + 9 < 2 ^ 16 ->
  exists nlmsg',
    Builder.PutRtAttr bo nlmsg outer
      (fun n => Builder.PutStringRtAttr bo n inner str) = Ok nlmsg' /\
    buf nlmsg' = buf nlmsg ++ padding (blen nlmsg) 4
                 ++ tlv_bytes bo outer (tlv_bytes bo inner (str ++ [x00])) /\
    builder_wf nlmsg'.
Proof.
  intros Hwf Hl Hs. pose proof (len_nonneg str) as Hstr. canon nlmsg Hwf.
  pose proof (len_nonneg b) as Hb.
  pose proof (padding_4_bound (len b) Hb) as Hpad.
  set (v := str ++ [x00]).
  assert (Hv : len v = len str + 1)
    by (unfold v; rewrite len_app; reflexivity).
  assert (Hin : len (tlv_bytes bo inner v) = len str + 5)
    by (rewrite len_tlv_bytes; lia).
  assert (Hw : forall n, 0 <= n -> 4 + n < 2 ^ 16 -> wrap_uint16 (4 + n) = SizeofRtAttr + n).
  { intros n Hn0 Hn. unfold wrap_uint16, SizeofRtAttr. apply Z.mod_small. lia. }
  destruct (PutRtAttr_builder_of bo b c outer
              (fun n => Builder.PutStringRtAttr bo n inner str)
              (tlv_bytes bo inner v)) as (c' & Hput & Hc' & Hf');
    [lia | lia | |].
  - intros c1 Hc1. cbv beta.
    set (b1 := (b ++ padding (len b) 4) ++ repeat x00 4) in *.
    assert (Hb1 : len b1 = len (b ++ padding (len b) 4) + 4)
      by (unfold b1; rewrite (len_app _ (repeat x00 4)), len_repeat; reflexivity).
    assert (Hal : len b1 mod 4 = 0).
    { rewrite Hb1, <- Zplus_mod_idemp_l, len_padded_mod_4. reflexivity. }
    rewrite len_app in Hb1.
    destruct (PutStringRtAttr_builder_of bo b1 c1 inner str) as (c2 & Hp2 & Hc2 & Hf2);
      [lia | lia |].
    fold v in Hp2, Hf2.
    rewrite padding_4_aligned in Hp2, Hf2 by (try exact Hal; lia).
    rewrite Hw in Hp2, Hf2 by lia. cbn [app] in Hp2, Hf2.
    exists c2. split; [exact Hp2|]. split; [lia | exact Hf2].
  - rewrite Hw in Hput, Hf' by lia.
    eexists. split; [exact Hput|]. rewrite buf_builder_of.
    split; [reflexivity|]. apply builder_of_wf. split; [exact Hf' | exact Hc'].
Qed.

Lemma PutRtAttr_nested_witness :
  exists nlmsg',
    Builder.PutRtAttr LittleEndian (builder_of [x01; x02; x03] 3) 7
      (fun n => Builder.PutStringRtAttr LittleEndian n 9 eth0) = Ok nlmsg' /\
    buf nlmsg' = buf (builder_of [x01; x02; x03] 3)
                 ++ padding (blen (builder_of [x01; x02; x03] 3)) 4
                 ++ tlv_bytes LittleEndian 7 (tlv_bytes LittleEndian 9 (eth0 ++ [x00])) /\
    builder_wf nlmsg'.
Proof.
  apply (PutRtAttr_nested LittleEndian (builder_of [x01; x02; x03] 3) 7 9 eth0).
  - apply builder_of_wf. vm_compute. split; discriminate.
  - vm_compute. discriminate.
  - vm_compute. reflexivity.
Defined.


(** [NewNlMsgBuilder]: the buffer is a header of [16] bytes in which the
    type and the flags are set and the length, the sequence number and the
    port id are zero. *)
Theorem NewNlMsgBuilder_header bo F T :
  is_uint16 F -> is_uint16 T ->
  exists nlmsg,
    Builder.NewNlMsgBuilder bo F T = Ok nlmsg /\
    builder_wf nlmsg /\ blen nlmsg = NLMSG_HDRLEN /\
    hdr bo (buf nlmsg) NlMsghdr.Len = Ok 0 /\
    hdr bo (buf nlmsg) NlMsghdr.Type_ = Ok T /\
    hdr bo (buf nlmsg) NlMsghdr.Flags = Ok F /\
    hdr bo (buf nlmsg) NlMsghdr.Seq = Ok 0 /\
    hdr bo (buf nlmsg) NlMsghdr.Pid = Ok 0.
Proof.
  intros HF HT. eexists. split; [apply NewNlMsgBuilder_builder_of|].
  split; [apply builder_of_wf; rewrite len_mk_hdr; unfold maxAlloc; lia|].
  split; [rewrite blen_builder_of; apply len_mk_hdr|].
  rewrite buf_builder_of. rewrite <- (app_nil_r (mk_hdr bo 0 T F 0 0)).
  apply hdr_mk_hdr; unfold is_uint32; try assumption; lia.
Qed.

Lemma NewNlMsgBuilder_header_witness :
  exists nlmsg,
    Builder.NewNlMsgBuilder BigEndian 5 16 = Ok nlmsg /\
    builder_wf nlmsg /\ blen nlmsg = NLMSG_HDRLEN /\
    hdr BigEndian (buf nlmsg) NlMsghdr.Len = Ok 0 /\
    hdr BigEndian (buf nlmsg) NlMsghdr.Type_ = Ok 16 /\
    hdr BigEndian (buf nlmsg) NlMsghdr.Flags = Ok 5 /\
    hdr BigEndian (buf nlmsg) NlMsghdr.Seq = Ok 0 /\
    hdr BigEndian (buf nlmsg) NlMsghdr.Pid = Ok 0.
Proof.
  apply (NewNlMsgBuilder_header BigEndian 5 16); unfold is_uint16; lia.
Defined.

Lemma split_header (b : list byte) :
  12 <= len b ->
  exists hl mid hs rest,
    b = hl ++ mid ++ hs ++ rest /\
    length hl = 4%nat /\ length mid = 4%nat /\ length hs = 4%nat /\
    mid = firstn 4 (skipn 4 b) /\ rest = skipn 12 b.
Proof.
  intros Hb. unfold len in Hb.
  exists (firstn 4 b), (firstn 4 (skipn 4 b)), (firstn 4 (skipn 8 b)), (skipn 12 b).
  split.
  - rewrite <- (firstn_skipn 4 b) at 1. f_equal.
    rewrite <- (firstn_skipn 4 (skipn 4 b)) at 1. f_equal.
    rewrite skipn_skipn. change (4 + 4)%nat with 8%nat.
    rewrite <- (firstn_skipn 4 (skipn 8 b)) at 1. f_equal.
    rewrite skipn_skipn. reflexivity.
  - rewrite !length_firstn, !length_skipn. repeat split; lia.
Qed.

(** [Finish]: the result is the buffer with its length written in the
    length field and the incremented counter in the sequence field; the
    type, the flags and everything from the port id on are unchanged; the
    builder is left without a buffer. *)
Theorem Finish_header bo nlmsg nextSeqNo :
  builder_wf nlmsg -> 12 <= blen nlmsg ->
  let seq := wrap_uint32 (nextSeqNo + 1) in
  exists res,
    Builder.Finish bo nlmsg nextSeqNo = Ok (res, seq, {| arr := []; blen := 0 |}, seq) /\
    len res = blen nlmsg /\
    hdr bo res NlMsghdr.Len = Ok (wrap_uint32 (blen nlmsg)) /\
    hdr bo res NlMsghdr.Seq = Ok seq /\
    firstn 4 (skipn 4 res) = firstn 4 (skipn 4 (buf nlmsg)) /\
    skipn 12 res = skipn 12 (buf nlmsg).
Proof.
  intros Hwf Hl seq. canon nlmsg Hwf.
  destruct (split_header b Hl) as (hl & mid & hs & rest & Hb & Hhl & Hmid & Hhs & Hm & Hr).
  rewrite <- Hm, <- Hr. clear Hm Hr. subst b.
  rewrite Finish_builder_of by assumption. fold seq.
  assert (Hu : forall x, 0 <= wrap_uint32 x < 256 ^ Z.of_nat 4).
  { intros x. unfold wrap_uint32. change (256 ^ Z.of_nat 4) with (2 ^ 32).
    apply Z.mod_pos_bound. lia. }
  eexists. split; [reflexivity|].
  split; [rewrite !len_app, !len_encode; unfold len; lia|].
  unfold hdr, get_field, NlMsghdr.Len, NlMsghdr.Seq. cbn [fst snd].
  split; [apply (load_app_at bo []); [reflexivity | apply Hu]|].
  split.
  - rewrite (app_assoc (encode bo 4 _) mid).
    apply load_app_at; [|apply Hu].
    rewrite len_app, len_encode. unfold len. rewrite Hmid. reflexivity.
  - split.
    + rewrite <- (length_encode bo 4 (wrap_uint32 (len (hl ++ mid ++ hs ++ rest)))) at 2.
      rewrite drop_app_length. rewrite <- Hmid. apply take_app_length.
    + set (e := encode bo 4 (wrap_uint32 (len (hl ++ mid ++ hs ++ rest)))).
      replace (e ++ mid ++ encode bo 4 seq ++ rest)
        with ((e ++ mid ++ encode bo 4 seq) ++ rest)
        by (now rewrite <- !app_assoc).
      replace 12%nat with (length (e ++ mid ++ encode bo 4 seq))
        by (unfold e; rewrite !length_app, !length_encode, Hmid; reflexivity).
      apply drop_app_length.
Qed.

Lemma Finish_header_witness :
  let nlmsg := builder_of (mk_hdr LittleEndian 0 16 5 0 0 ++ [x01; x02]) 20 in
  let seq := wrap_uint32 (41 + 1) in
  exists res,
    Builder.Finish LittleEndian nlmsg 41 = Ok (res, seq, {| arr := []; blen := 0 |}, seq) /\
    len res = blen nlmsg /\
    hdr LittleEndian res NlMsghdr.Len = Ok (wrap_uint32 (blen nlmsg)) /\
    hdr LittleEndian res NlMsghdr.Seq = Ok seq /\
    firstn 4 (skipn 4 res) = firstn 4 (skipn 4 (buf nlmsg)) /\
    skipn 12 res = skipn 12 (buf nlmsg).
Proof.
  intros nlmsg.
  apply (Finish_header LittleEndian nlmsg 41).
  - apply builder_of_wf. vm_compute. split; discriminate.
  - vm_compute. discriminate.
Defined.

Lemma wrap_uint32_succ_neq x : wrap_uint32 (wrap_uint32 x + 1) <> wrap_uint32 x.
Proof.
  unfold wrap_uint32.
  pose proof (Z.mod_pos_bound x (2 ^ 32) ltac:(lia)) as Hx.
  destruct (Z.eq_dec (x mod 2 ^ 32) (2 ^ 32 - 1)) as [He|Hne].
  - rewrite He. replace (2 ^ 32 - 1 + 1) with (2 ^ 32) by lia.
    rewrite Z.mod_same by lia. lia.
  - rewrite (Z.mod_small (x mod 2 ^ 32 + 1)) by lia. lia.
Qed.

(** [Finish] consumes the builder and the counter: the sequence number is
    the counter plus one as a [uint32] and becomes the new counter, so the
    next [Finish] hands out a different number; and a second [Finish] on the
    same builder, which has no buffer any more, panics. *)
Theorem Finish_consumes bo nlmsg nextSeqNo res seq nlmsg' nextSeqNo' :
  Builder.Finish bo nlmsg nextSeqNo = Ok (res, seq, nlmsg', nextSeqNo') ->
  seq = wrap_uint32 (nextSeqNo + 1) /\ nextSeqNo' = seq /\
  wrap_uint32 (nextSeqNo' + 1) <> seq /\
  Builder.Finish bo nlmsg' nextSeqNo' = Panic IndexOutOfRange.
Proof.
  unfold Builder.Finish at 1. intros H.
  destruct (nlMsghdrAt (buf nlmsg) 0) as [h| |]; cbn [bind] in H; try discriminate.
  destruct (buf_set_field bo nlmsg h NlMsghdr.Len _) as [n1| |];
    cbn [bind] in H; try discriminate.
  destruct (buf_set_field bo n1 h NlMsghdr.Seq _) as [n2| |];
    cbn [bind] in H; try discriminate.
  injection H as <- <- <- <-.
  split; [reflexivity|]. split; [reflexivity|].
  split; [apply wrap_uint32_succ_neq | reflexivity].
Qed.

Lemma Finish_consumes_witness :
  exists res nlmsg',
    Builder.Finish LittleEndian (builder_of (mk_hdr LittleEndian 0 16 5 0 0) 16) (2 ^ 32 - 1)
      = Ok (res, 0, nlmsg', 0) /\
    0 = wrap_uint32 (2 ^ 32 - 1 + 1) /\ 0 = 0 /\
    wrap_uint32 (0 + 1) <> 0 /\
    Builder.Finish LittleEndian nlmsg' 0 = Panic IndexOutOfRange.
Proof.
  eexists _, _.
  assert (H : Builder.Finish LittleEndian (builder_of (mk_hdr LittleEndian 0 16 5 0 0) 16)
                (2 ^ 32 - 1)
              = Ok (encode LittleEndian 4 16 ++ encode LittleEndian 2 16
                    ++ encode LittleEndian 2 5 ++ repeat x00 8,
                    0, {| arr := []; blen := 0 |}, 0))
    by (vm_compute; reflexivity).
  split; [exact H|].
  exact (Finish_consumes LittleEndian _ _ _ _ _ _ H).
Defined.


(** ** The parser and the attribute map: further behaviour *)

(** [TakeNlMsghdr] checks no bound: as soon as the type field of a header at
    offset [0] lies in the buffer, it compares that type and moves the
    cursor on by the size of a header, past the end of a buffer that is
    shorter; and on an empty buffer it panics. *)
Theorem TakeNlMsghdr_no_bounds_check bo nlmsg expectType :
  (data nlmsg = [] ->
   Butcher.TakeNlMsghdr bo nlmsg expectType = Panic IndexOutOfRange) /\
  (forall typ,
   hdr bo (data nlmsg) NlMsghdr.Type_ = Ok typ ->
   is_int (pos nlmsg + NLMSG_HDRLEN) ->
   Butcher.TakeNlMsghdr bo nlmsg expectType =
     Ok (set_pos nlmsg (pos nlmsg + NLMSG_HDRLEN),
         (if typ =? expectType then Some 0 else None),
         (if typ =? expectType then None else Some (WrongType typ expectType)))).
Proof.
  unfold Butcher.TakeNlMsghdr. split.
  - intros ->. reflexivity.
  - intros typ Htyp Hint.
    destruct (load_Ok_inv _ _ _ _ _ Htyp) as (_ & Hb & _).
    unfold NlMsghdr.Type_ in Hb. cbn [fst snd] in Hb.
    unfold nlMsghdrAt, elem_addr.
    destruct (Z.ltb_spec 0 (len (data nlmsg))); [|lia].
    change (0 <=? 0) with true. cbn [andb bind set_pos data].
    unfold hdr in Htyp. rewrite Htyp. cbn [bind].
    unfold int_add. rewrite wrap_int_id by assumption.
    destruct (typ =? expectType); reflexivity.
Qed.

Lemma TakeNlMsghdr_no_bounds_check_witness :
  Butcher.TakeNlMsghdr LittleEndian {| data := []; pos := 0 |} 16 = Panic IndexOutOfRange /\
  Butcher.TakeNlMsghdr LittleEndian
    {| data := [x00; x00; x00; x00; x10; x00]; pos := 0 |} 16
    = Ok ({| data := [x00; x00; x00; x00; x10; x00]; pos := 16 |}, Some 0, None).
Proof.
  split.
  - apply (TakeNlMsghdr_no_bounds_check LittleEndian {| data := []; pos := 0 |} 16).
    reflexivity.
  - apply (proj2 (TakeNlMsghdr_no_bounds_check LittleEndian
                    {| data := [x00; x00; x00; x00; x10; x00]; pos := 0 |} 16) 16).
    + vm_compute. reflexivity.
    + vm_compute. split; discriminate.
Defined.

(** [GetUint16] case by case: an absent or [nil] value is the
    missing-attribute error; a value of two bytes is decoded in the byte
    order of the machine, so that an encoded [uint16] reads back; a value of
    any other length gives [0] and no error. *)
Theorem GetUint16_cases bo (attrs : Attrs) typ :
  (attrs !! typ = None \/ attrs !! typ = Some None ->
   GetUint16 bo attrs typ = Ok (0, Some (MissingAttribute typ))) /\
  (forall v, attrs !! typ = Some (Some v) -> len v = 2 ->
   GetUint16 bo attrs typ = Ok (decode bo v, None)) /\
  (forall x, attrs !! typ = Some (Some (encode bo 2 x)) -> is_uint16 x ->
   GetUint16 bo attrs typ = Ok (x, None)) /\
  (forall v, attrs !! typ = Some (Some v) -> len v <> 2 ->
   GetUint16 bo attrs typ = Ok (0, None)).
Proof.
  assert (H2 : forall v, attrs !! typ = Some (Some v) -> len v = 2 ->
               GetUint16 bo attrs typ = Ok (decode bo v, None)).
  { intros v Hv Hl. unfold GetUint16, Get. rewrite Hv. cbn [negb].
    rewrite Hl. change (2 =? 2) with true. cbn [negb].
    unfold elem_addr. rewrite Hl. cbn [Z.leb Z.ltb andb bind].
    change (0 <=? 0) with true. change (0 <? 2) with true. cbn [andb bind].
    rewrite load_in_bounds by (simpl; lia). cbn [bind].
    unfold len in Hl. destruct v as [|b0 [|b1 [|b2 v]]]; simpl in Hl; try lia.
    reflexivity. }
  split; [|split; [exact H2|split]].
  - intros [H|H]; unfold GetUint16, Get; rewrite H; reflexivity.
  - intros x Hx Hr. rewrite (H2 _ Hx) by apply len_encode.
    rewrite decode_encode; [reflexivity | exact Hr].
  - intros v Hv Hl. unfold GetUint16, Get. rewrite Hv.
    destruct (Z.eqb_spec (len v) 2); [contradiction | reflexivity].
Qed.

Lemma GetUint16_cases_witness :
  GetUint16 BigEndian {[ 5 := Some [x01; x02] ]} 7 = Ok (0, Some (MissingAttribute 7)) /\
  GetUint16 BigEndian {[ 5 := Some [x01; x02] ]} 5 = Ok (decode BigEndian [x01; x02], None) /\
  GetUint16 BigEndian {[ 5 := Some (encode BigEndian 2 258) ]} 5 = Ok (258, None) /\
  GetUint16 BigEndian {[ 5 := Some [x01; x02; x03] ]} 5 = Ok (0, None).
Proof.
  split; [|split; [|split]].
  - apply (GetUint16_cases BigEndian {[ 5 := Some [x01; x02] ]} 7). left. reflexivity.
  - apply (proj1 (proj2 (GetUint16_cases BigEndian {[ 5 := Some [x01; x02] ]} 5))
             [x01; x02]); reflexivity.
  - apply (proj1 (proj2 (proj2
             (GetUint16_cases BigEndian {[ 5 := Some (encode BigEndian 2 258) ]} 5))) 258);
      [reflexivity | unfold is_uint16; lia].
  - apply (proj2 (proj2 (proj2
             (GetUint16_cases BigEndian {[ 5 := Some [x01; x02; x03] ]} 5)))
             [x01; x02; x03]);
      [reflexivity | vm_compute; discriminate].
Defined.


(** *** [TakeAttrs] *)

(** The loop runs through the records of a prefix of the stream. *)
Lemma TakeAttrs_loop_prefix bo d rs : forall f p (m : Attrs) q,
  allocatable d -> 0 <= p -> p + 3 <= max_int ->
  tlv_prefix bo d p rs q ->
  Butcher.TakeAttrs_loop bo (length rs + f) {| data := d; pos := p |} m
    = Butcher.TakeAttrs_loop bo f {| data := d; pos := q |} (attrs_of rs m) /\
  p + 4 * len rs <= q /\ (rs <> [] -> q <= len d).
Proof.
  induction rs as [|[t v] rs IH]; intros f p m q Halloc Hp Hov Hpre.
  - cbn [tlv_prefix] in Hpre. subst q. split; [reflexivity|].
    split; [unfold len; simpl; lia | congruence].
  - cbn [tlv_prefix] in Hpre. destruct Hpre as [Htlv Hrest].
    pose proof (align_4_bounds p Hp Hov) as [Hab _]. rewrite align_4 in Hab by assumption.
    destruct (tlv_at_inv bo d (4 * ((p + 3) / 4)) t v ltac:(lia) Htlv) as (Hfit & _).
    pose proof (len_nonneg v) as Hv. unfold SizeofRtAttr in Hrest.
    cbn [length Nat.add].
    rewrite (TakeAttrs_loop_record bo (length rs + f) d p m t v) by assumption.
    destruct (IH f (4 * ((p + 3) / 4) + 4 + len v) (<[t := Some v]> m) q)
      as (Hloop & Hq & Hend); try assumption; try lia; try int_range.
    split; [exact Hloop|].
    assert (Hl : len ((t, v) :: rs) = 1 + len rs) by (unfold len; cbn [length]; lia).
    rewrite Hl. split; [lia|]. intros _.
    destruct rs as [|r rs]; [cbn [tlv_prefix] in Hrest; lia | apply Hend; discriminate].
Qed.

(** Truncation: after the records [rs], a record whose prefix or whose
    declared length does not fit in the buffer makes [TakeAttrs] return the
    truncated-attribute error, together with the map of the records decoded
    before it and with the cursor at the aligned start of the bad record. *)
Theorem TakeAttrs_truncated bo d p rs q :
  allocatable d -> 0 <= p <= len d ->
  tlv_prefix bo d p rs q ->
  let a := 4 * ((q + 3) / 4) in
  a < len d ->
  (len d < a + 4 ->
   Butcher.TakeAttrs bo {| data := d; pos := p |}
     = Ok ({| data := d; pos := a |}, attrs_of rs ∅,
           Some (Truncated "netlink attribute" (len d - a) 4))) /\
  (forall l,
   a + 4 <= len d -> get_field bo d a RtAttr.Len = Ok l -> len d < a + l ->
   Butcher.TakeAttrs bo {| data := d; pos := p |}
     = Ok ({| data := d; pos := a |}, attrs_of rs ∅,
           Some (Truncated "netlink attribute" (len d - a) l))).
Proof.
  intros Halloc Hp Hpre a Ha.
  assert (Hov : p + 3 <= max_int) by int_range.
  destruct (TakeAttrs_loop_prefix bo d rs (S (length d) - length rs) p ∅ q)
    as (Hloop & Hq & Hend); try assumption; try lia.
  assert (Hqd : q <= len d).
  { destruct rs as [|r rs]; [cbn [tlv_prefix] in Hpre; lia | apply Hend; discriminate]. }
  assert (Hrs : (length rs <= length d)%nat).
  { unfold len in *. lia. }
  unfold Butcher.TakeAttrs. cbn [data].
  replace (S (length d)) with (length rs + (S (length d) - length rs))%nat by lia.
  rewrite Hloop.
  replace (S (length d) - length rs)%nat with (S (length d - length rs)) by lia.
  assert (Hq0 : 0 <= q) by (pose proof (len_nonneg rs); lia).
  rewrite TakeAttrs_loop_unfold by (try assumption; int_range).
  cbv zeta. fold a.
  destruct (Z.leb_spec (len d) a); [lia|].
  split.
  - intros Hshort. destruct (Z.leb_spec (a + 4) (len d)); [lia | reflexivity].
  - intros l Hfit Hlen Hlong.
    destruct (Z.leb_spec (a + 4) (len d)); [|lia]. cbn [negb].
    unfold get_field, RtAttr.Len in Hlen. cbn [fst snd] in Hlen.
    rewrite Z.add_0_r in Hlen.
    assert (Ha0 : 0 <= a).
    { unfold a. pose proof (Z.div_mod (q + 3) 4 ltac:(lia)).
      pose proof (Z.mod_pos_bound (q + 3) 4 ltac:(lia)). lia. }
    rewrite load_in_bounds in Hlen by (simpl; lia). injection Hlen as Hlen.
    rewrite Hlen.
    destruct (Z.leb_spec (a + l) (len d)); [lia | reflexivity].
Qed.

(** One record of type [1], then two bytes that cannot be a prefix. *)
Lemma TakeAttrs_truncated_witness :
  let d := [x05; x00; x01; x00; xaa; x00; x00; x00; x08; x00] in
  Butcher.TakeAttrs LittleEndian {| data := d; pos := 0 |}
    = Ok ({| data := d; pos := 8 |}, attrs_of [(1, [xaa])] ∅,
          Some (Truncated "netlink attribute" 2 4)).
Proof.
  intros d.
  apply (proj1 (TakeAttrs_truncated LittleEndian d 0 [(1, [xaa])] 5
                  ltac:(vm_compute; discriminate)
                  ltac:(vm_compute; split; discriminate)
                  ltac:(vm_compute; repeat split; reflexivity)
                  ltac:(vm_compute; reflexivity))).
  vm_compute. reflexivity.
Defined.

Lemma TakeAttrs_loop_cursor bo d f : forall p0 p (m : Attrs),
  allocatable d -> 0 <= p0 <= p -> p <= len d ->
  len d - p <= 4 * Z.of_nat f ->
  TakeAttrs_cursor_ok d p0 (Butcher.TakeAttrs_loop bo (S f) {| data := d; pos := p |} m).
Proof.
  induction f as [|f IH]; intros p0 p m Halloc Hp Hpd Hfuel;
    (assert (Hov : p + 3 <= max_int) by int_range);
    rewrite TakeAttrs_loop_unfold by (try assumption; lia); cbv zeta;
    pose proof (align_4_bounds p ltac:(lia) Hov) as [Hab _];
    rewrite align_4 in Hab by (try assumption; lia);
    set (a := 4 * ((p + 3) / 4)) in *.
  - destruct (Z.leb_spec (len d) a); [cbn; split; [reflexivity | lia] | lia].
  - destruct (Z.leb_spec (len d) a); [cbn; split; [reflexivity | lia]|].
    destruct (Z.leb_spec (a + 4) (len d)); cbn [negb];
      [|cbn; split; [reflexivity | lia]].
    set (l := decode bo _).
    destruct (Z.leb_spec (a + l) (len d)); cbn [negb];
      [|cbn; split; [reflexivity | lia]].
    destruct (Z.ltb_spec l 4); [exact I|].
    apply IH; [assumption | lia | lia | lia].
Qed.

(** From a cursor inside the buffer and whatever the bytes, [TakeAttrs]
    terminates; when it returns, with or without the truncated-attribute
    error, the cursor has not moved backwards and has not left the buffer;
    its only panic is the one of the value slice expression. *)
Theorem TakeAttrs_cursor bo nlmsg :
  allocatable (data nlmsg) -> 0 <= pos nlmsg <= len (data nlmsg) ->
  TakeAttrs_cursor_ok (data nlmsg) (pos nlmsg) (Butcher.TakeAttrs bo nlmsg).
Proof.
  intros Halloc Hp. unfold Butcher.TakeAttrs. destruct nlmsg as [d p].
  cbn [data pos] in *. apply TakeAttrs_loop_cursor; try assumption; try lia.
  unfold len. lia.
Qed.

Lemma TakeAttrs_cursor_witness :
  TakeAttrs_cursor_ok [x05; x00; x01; x00; xaa; x00; x00; x00; x08; x00] 0
    (Butcher.TakeAttrs BigEndian
       {| data := [x05; x00; x01; x00; xaa; x00; x00; x00; x08; x00]; pos := 0 |}).
Proof.
  apply (TakeAttrs_cursor BigEndian
           {| data := [x05; x00; x01; x00; xaa; x00; x00; x00; x08; x00]; pos := 0 |}).
  - vm_compute. discriminate.
  - vm_compute. split; discriminate.
Defined.

(** *** [Get] on the map of [TakeAttrs] *)

Lemma Get_attrs_of_absent rs t :
  Forall (fun r => fst r <> t) rs ->
  Get (attrs_of rs ∅) t = (None, Some (MissingAttribute t)).
Proof.
  intros H. unfold Get. rewrite attrs_of_lookup_other by assumption.
  rewrite lookup_empty. reflexivity.
Qed.

Lemma Get_attrs_of_last rs1 t v rs2 :
  Forall (fun r => fst r <> t) rs2 ->
  Get (attrs_of (rs1 ++ (t, v) :: rs2) ∅) t = (Some v, None).
Proof.
  intros H.
  assert (Hl : attrs_of (rs1 ++ [(t, v)] ++ rs2) ∅ !! t = Some (Some v)).
  { rewrite !attrs_of_app, attrs_of_lookup_other by assumption.
    unfold attrs_of. cbn [fold_left fst snd]. apply lookup_insert_eq. }
  unfold Get. change (rs1 ++ (t, v) :: rs2) with (rs1 ++ [(t, v)] ++ rs2).
  rewrite Hl. reflexivity.
Qed.

(** [Get] after [TakeAttrs] on a well-formed stream: the type of no record
    is the missing-attribute error, and the type of a record gives the value
    of the last record of that type. *)
Theorem TakeAttrs_then_Get bo d p rs :
  allocatable d -> 0 <= p -> p + 3 <= max_int ->
  tlv_stream bo d p rs ->
  exists st (m : Attrs),
    Butcher.TakeAttrs bo {| data := d; pos := p |} = Ok (st, m, None) /\
    forall t,
      (Forall (fun r => fst r <> t) rs ->
       Get m t = (None, Some (MissingAttribute t))) /\
      (forall rs1 v rs2,
       rs = rs1 ++ (t, v) :: rs2 -> Forall (fun r => fst r <> t) rs2 ->
       Get m t = (Some v, None)).
Proof.
  intros Halloc Hp Hov Hs.
  destruct (TakeAttrs_stream bo d p rs Halloc Hp Hov Hs) as [st Hst].
  exists st, (attrs_of rs ∅). split; [exact Hst|].
  intros t. split.
  - apply Get_attrs_of_absent.
  - intros rs1 v rs2 -> H. apply Get_attrs_of_last. assumption.
Qed.

Lemma TakeAttrs_then_Get_witness :
  let d := [x05; x00; x01; x00; xaa; x00; x00; x00;
            x06; x00; x02; x00; xbb; xcc] in
  exists st (m : Attrs),
    Butcher.TakeAttrs LittleEndian {| data := d; pos := 0 |} = Ok (st, m, None) /\
    forall t,
      (Forall (fun r => fst r <> t) [(1, [xaa]); (2, [xbb; xcc])] ->
       Get m t = (None, Some (MissingAttribute t))) /\
      (forall rs1 v rs2,
       [(1, [xaa]); (2, [xbb; xcc])] = rs1 ++ (t, v) :: rs2 ->
       Forall (fun r => fst r <> t) rs2 ->
       Get m t = (Some v, None)).
Proof.
  intros d.
  apply (TakeAttrs_then_Get LittleEndian d 0 [(1, [xaa]); (2, [xbb; xcc])]).
  - vm_compute. discriminate.
  - lia.
  - vm_compute. discriminate.
  - vm_compute. repeat split; try reflexivity; discriminate.
Defined.


(** Nested attributes are isolated: parsing a buffer that holds an
    attribute whose value is itself a record gives a map with the outer type
    only, bound to the bytes of the inner record; the inner attribute
    appears when that value is parsed in its turn. *)
Theorem TakeAttrs_nested bo (pre : list byte) outer inner v :
  is_uint16 outer -> is_uint16 inner -> len v + 8 < 2 ^ 16 -> len pre <= 2 ^ 46 ->
  let d := pre ++ padding (len pre) 4 ++ tlv_bytes bo outer (tlv_bytes bo inner v) in
  (exists st,
     Butcher.TakeAttrs bo {| data := d; pos := len pre |}
       = Ok (st, {[ outer := Some (tlv_bytes bo inner v) ]}, None)) /\
  (exists st,
     Butcher.TakeAttrs bo (NewNlMsgButcher (tlv_bytes bo inner v))
       = Ok (st, {[ inner := Some v ]}, None)).
Proof.
  intros Ho Hi Hv Hpre d. pose proof (len_nonneg v) as Hv0.
  pose proof (len_nonneg pre) as Hp0.
  pose proof (padding_4_bound (len pre) Hp0) as Hpad.
  assert (Hin : len (tlv_bytes bo inner v) = 4 + len v) by apply len_tlv_bytes.
  split.
  - pose proof (tlv_stream_bytes bo [(outer, tlv_bytes bo inner v)] pre) as Hs.
    cbn [stream_bytes] in Hs. cbv zeta in Hs. change RTA_ALIGNTO with 4 in Hs.
    rewrite app_nil_r in Hs. fold d in Hs.
    destruct (TakeAttrs_stream bo d (len pre) [(outer, tlv_bytes bo inner v)])
      as [st Hst].
    + unfold allocatable, maxAlloc, d. rewrite !len_app, len_tlv_bytes, Hin. lia.
    + lia.
    + unfold max_int. lia.
    + apply Hs. constructor; [|constructor].
      split; cbn [fst snd]; [exact Ho | unfold SizeofRtAttr; lia].
    + exists st. rewrite Hst. unfold attrs_of. cbn [fold_left fst snd].
      rewrite insert_empty. reflexivity.
  - pose proof (tlv_stream_bytes bo [(inner, v)] []) as Hs.
    cbn [stream_bytes app] in Hs. cbv zeta in Hs. change RTA_ALIGNTO with 4 in Hs.
    rewrite app_nil_r in Hs.
    change (padding (len []) 4) with (@nil byte) in Hs. cbn [app] in Hs.
    change (len (@nil byte)) with 0 in Hs.
    destruct (TakeAttrs_stream bo (tlv_bytes bo inner v) 0 [(inner, v)]) as [st Hst].
    + unfold allocatable, maxAlloc. rewrite Hin. lia.
    + lia.
    + unfold max_int. lia.
    + apply Hs. constructor; [|constructor].
      split; cbn [fst snd]; [exact Hi | unfold SizeofRtAttr; lia].
    + exists st. unfold NewNlMsgButcher. rewrite Hst.
      unfold attrs_of. cbn [fold_left fst snd]. rewrite insert_empty. reflexivity.
Qed.

Lemma TakeAttrs_nested_witness :
  let d := [x01; x02; x03] ++ padding (len [x01; x02; x03]) 4
           ++ tlv_bytes LittleEndian 7 (tlv_bytes LittleEndian 9 eth0z) in
  (exists st,
     Butcher.TakeAttrs LittleEndian {| data := d; pos := len [x01; x02; x03] |}
       = Ok (st, {[ 7 := Some (tlv_bytes LittleEndian 9 eth0z) ]}, None)) /\
  (exists st,
     Butcher.TakeAttrs LittleEndian (NewNlMsgButcher (tlv_bytes LittleEndian 9 eth0z))
       = Ok (st, {[ 9 := Some eth0z ]}, None)).
Proof.
  apply (TakeAttrs_nested LittleEndian [x01; x02; x03] 7 9 eth0z).
  - unfold is_uint16. lia.
  - unfold is_uint16. lia.
  - vm_compute. reflexivity.
  - vm_compute. discriminate.
Defined.


(** ** The validator: further behaviour *)

Lemma checkResponse_never_MultipleMessages_witness :
  checkResponse LittleEndian {| fd := 3; addr_Pid := 99 |}
    (mk_hdr LittleEndian 16 16 0 8 99 ++ mk_hdr LittleEndian 16 16 0 9 99) 8
    <> Ok (Some MultipleMessages).
Proof.
  apply (checkResponse_never_MultipleMessages LittleEndian {| fd := 3; addr_Pid := 99 |}
           (mk_hdr LittleEndian 16 16 0 8 99 ++ mk_hdr LittleEndian 16 16 0 9 99) 8).
  vm_compute. discriminate.
Defined.

(** Every message that passes the four checks, declares at least the size
    of a header and is not of the error type is accepted, whatever follows
    the declared length in the buffer. *)
Theorem checkResponse_normal_message bo s data expectedSeq hLen typ :
  allocatable data ->
  NLMSG_HDRLEN <= len data ->
  hdr bo data NlMsghdr.Len = Ok hLen -> hLen <= len data ->
  hdr bo data NlMsghdr.Pid = Ok (addr_Pid s) ->
  hdr bo data NlMsghdr.Seq = Ok expectedSeq ->
  hdr bo data NlMsghdr.Type_ = Ok typ -> typ <> NLMSG_ERROR ->
  NLMSG_HDRLEN <= hLen ->
  checkResponse bo s data expectedSeq = Ok None.
Proof.
  intros Halloc Hlen HLen Hle HPid HSeq HType Hne Hmin.
  rewrite (checkResponse_checks_passed bo s data expectedSeq hLen) by assumption.
  unfold reslice.
  destruct (Z.leb_spec 0 NLMSG_HDRLEN); [|unfold NLMSG_HDRLEN in *; lia].
  destruct (Z.leb_spec NLMSG_HDRLEN hLen); [|lia].
  destruct (Z.leb_spec hLen (len data)); [|lia].
  cbn [andb bind]. rewrite HType. cbn [bind].
  destruct (Z.eqb_spec typ NLMSG_ERROR); [contradiction|].
  pose proof (align_4_bounds (len data) (len_nonneg data) ltac:(int_range)) as [Ha _].
  unfold NLMSG_ALIGNTO.
  destruct (Z.gtb_spec hLen (align (len data) 4)); [lia | reflexivity].
Qed.

Lemma checkResponse_normal_message_witness :
  checkResponse LittleEndian {| fd := 3; addr_Pid := 99 |}
    (mk_hdr LittleEndian 20 16 0 8 99 ++ [x01; x02; x03; x04]) 8 = Ok None.
Proof.
  apply (checkResponse_normal_message LittleEndian {| fd := 3; addr_Pid := 99 |}
           (mk_hdr LittleEndian 20 16 0 8 99 ++ [x01; x02; x03; x04]) 8 20 16);
    vm_compute; congruence.
Defined.

(** The declared length is not checked against the size of a header: a
    message that passes the four checks and declares less than a header
    makes the payload slice expression panic, whatever its type; and a
    message of the error type that declares exactly a header, so that it has
    no payload, makes the access to the error code panic. *)
Theorem checkResponse_short_declared_length bo s data expectedSeq hLen :
  NLMSG_HDRLEN <= len data ->
  hdr bo data NlMsghdr.Len = Ok hLen -> hLen <= len data ->
  hdr bo data NlMsghdr.Pid = Ok (addr_Pid s) ->
  hdr bo data NlMsghdr.Seq = Ok expectedSeq ->
  (hLen < NLMSG_HDRLEN ->
   checkResponse bo s data expectedSeq = Panic SliceBoundsOutOfRange) /\
  (hLen = NLMSG_HDRLEN -> hdr bo data NlMsghdr.Type_ = Ok NLMSG_ERROR ->
   checkResponse bo s data expectedSeq = Panic IndexOutOfRange).
Proof.
  intros Hlen HLen Hle HPid HSeq.
  rewrite (checkResponse_checks_passed bo s data expectedSeq hLen) by assumption.
  unfold reslice. split.
  - intros Hshort.
    destruct (Z.leb_spec NLMSG_HDRLEN hLen); [lia|].
    rewrite andb_false_r. reflexivity.
  - intros -> HType.
    destruct (Z.leb_spec NLMSG_HDRLEN (len data)); [|lia].
    rewrite Z.leb_refl. change (0 <=? NLMSG_HDRLEN) with true.
    cbn [andb bind]. rewrite HType. cbn [bind]. rewrite Z.eqb_refl.
    unfold nlMsgerrAt. cbn [sublen]. rewrite Z.sub_diag. reflexivity.
Qed.

Lemma checkResponse_short_declared_length_witness :
  checkResponse LittleEndian {| fd := 3; addr_Pid := 99 |}
    (mk_hdr LittleEndian 0 16 0 8 99) 8 = Panic SliceBoundsOutOfRange /\
  checkResponse LittleEndian {| fd := 3; addr_Pid := 99 |}
    (mk_hdr LittleEndian 16 NLMSG_ERROR 0 8 99) 8 = Panic IndexOutOfRange.
Proof.
  split.
  - apply (checkResponse_short_declared_length LittleEndian {| fd := 3; addr_Pid := 99 |}
             (mk_hdr LittleEndian 0 16 0 8 99) 8 0); vm_compute; congruence.
  - apply (checkResponse_short_declared_length LittleEndian {| fd := 3; addr_Pid := 99 |}
             (mk_hdr LittleEndian 16 NLMSG_ERROR 0 8 99) 8 16); vm_compute; congruence.
Defined.

